(** * express-route-util: the route-tree compiler and the URL generator

    A shallow embedding of [express_route_util.js] (the version with the
    [required] prefix/postfix controllers): the route key parser, the
    propagation of [required] controllers, [buildRoutes], [getControllerUrl],
    [setDefaultMethod] and [DepthString]; and, over a directory given as a
    tree, [mergeObjs] and [loadControllers].

    Conventions of the embedding.
    - A JavaScript string is a [string]: a sequence of code units below 256.
    - The module globals [controllerToPathHash] and [defaultMethod], the
      Express server and the String objects created by [new String] live in
      a [world] that every operation threads explicitly.
    - An exception is the result [Throw]; the world it leaves behind is
      returned with it, since registration is not transactional.
    - [Unsupported] marks inputs outside the modelled fragment of
      JavaScript (it is not an error of the program). *)

From Stdlib Require Import Ascii ZArith Lia.
From stdpp Require Import base option list gmap strings.

Set Warnings "-register-all".


(** ** Strings *)

Module Str.

Definition isUpper (c : ascii) : bool :=
  (65 <=? nat_of_ascii c)%nat && (nat_of_ascii c <=? 90)%nat.

(** [toLowerCase] on the letters A-Z.  The source lower-cases only text
    that a case-insensitive regular expression over ASCII letters has
    matched, where this is what [String.prototype.toLowerCase] does. *)
Definition lowerChar (c : ascii) : ascii :=
  if isUpper c then ascii_of_nat (nat_of_ascii c + 32) else c.

Fixpoint toLowerCase (s : string) : string :=
  match s with
  | EmptyString => EmptyString
  | String c s' => String (lowerChar c) (toLowerCase s')
  end.

Definition charIn (cls : string) (c : ascii) : bool :=
  existsb (Ascii.eqb c) (String.list_ascii_of_string cls).

(** The longest prefix of [s] whose characters satisfy [p], and the rest. *)
Fixpoint span (p : ascii -> bool) (s : string) : string * string :=
  match s with
  | EmptyString => (EmptyString, EmptyString)
  | String c s' =>
      if p c then let '(run, rest) := span p s' in (String c run, rest)
      else (EmptyString, s)
  end.

Definition startsWith (c : ascii) (s : string) : bool :=
  match s with
  | String c' _ => Ascii.eqb c' c
  | EmptyString => false
  end.

Fixpoint contains (c : ascii) (s : string) : bool :=
  match s with
  | EmptyString => false
  | String c' s' => Ascii.eqb c' c || contains c s'
  end.

Definition isEmpty (s : string) : bool :=
  match s with EmptyString => true | _ => false end.

Fixpoint all (p : ascii -> bool) (s : string) : bool :=
  match s with
  | EmptyString => true
  | String c s' => p c && all p s'
  end.

(** [s.split(sep)] for a one-character separator. *)
Fixpoint split (sep : ascii) (s : string) : list string :=
  match s with
  | EmptyString => [EmptyString]
  | String c s' =>
      if Ascii.eqb c sep then EmptyString :: split sep s'
      else match split sep s' with
           | piece :: pieces => String c piece :: pieces
           | [] => [String c EmptyString]
           end
  end.

(** [pieces.join(sep)]. *)
Fixpoint join (sep : string) (pieces : list string) : string :=
  match pieces with
  | [] => EmptyString
  | [piece] => piece
  | piece :: pieces' => piece +:+ sep +:+ join sep pieces'
  end.

(** [s.replace(/\/$/, '')]: one trailing slash is removed. *)
Fixpoint removeTrailingSlash (s : string) : string :=
  match s with
  | EmptyString => EmptyString
  | String c s' =>
      if Ascii.eqb c "/"%char && isEmpty s' then EmptyString
      else String c (removeTrailingSlash s')
  end.

(** Case-sensitive literal prefix: the remainder of [s] after [p]. *)
Fixpoint stripPrefix (p s : string) : option string :=
  match p, s with
  | EmptyString, _ => Some s
  | String a p', String c s' =>
      if Ascii.eqb a c then stripPrefix p' s' else None
  | String _ _, EmptyString => None
  end.

(** Prefix of [s] that equals the lower-case word [p] up to the case of
    ASCII letters (the [i] flag): the matched text and the remainder. *)
Fixpoint stripPrefixCI (p s : string) : option (string * string) :=
  match p, s with
  | EmptyString, _ => Some (EmptyString, s)
  | String a p', String c s' =>
      if Ascii.eqb a (lowerChar c)
      then match stripPrefixCI p' s' with
           | Some (m, rest) => Some (String c m, rest)
           | None => None
           end
      else None
  | String _ _, EmptyString => None
  end.

End Str.

(** ** The route key parser (lines 153-163 of [buildRoutes]) *)

Module Parser.
Import Str.

(** The alternation [(get|post|put|del|all)] of the two [match] tests. *)
Definition methodNames : list string := ["get"; "post"; "put"; "del"; "all"].

(** The alternation [(get|post|pul|del|all)] of the [replace] on line 159. *)
Definition replaceNames : list string := ["get"; "post"; "pul"; "del"; "all"].

(** The character class [[adeglopstu,]] under the [i] flag. *)
Definition isMethodChar (c : ascii) : bool := charIn "adeglopstu," (lowerChar c).

(** [^(a1|a2|...)] followed by a continuation [k] on the remainder:
    alternatives are tried in order, and an alternative whose continuation
    fails is abandoned for the next one, as a backtracking matcher does.
    The result is the text captured by the group and the remainder. *)
Fixpoint matchAlternation (alts : list string) (k : string -> bool) (s : string)
  : option (string * string) :=
  match alts with
  | [] => None
  | a :: alts' =>
      match stripPrefixCI a s with
      | Some (m, rest) => if k rest then Some (m, rest) else matchAlternation alts' k s
      | None => matchAlternation alts' k s
      end
  end.

(** [theMethod] is a string or, after [split(",")], an array. *)
Inductive methodSpec :=
| Single (m : string)
| Multiple (ms : list string).

Definition methodsOf (t : methodSpec) : list string :=
  match t with
  | Single m => [m]
  | Multiple ms => ms
  end.

Definition parseRouteKey (defaultMethod route : string) : methodSpec * string :=
  (* line 157: routeUrl.match(/^(get|post|put|del|all)\//i) *)
  match matchAlternation methodNames (startsWith "/") route with
  | Some (m, _) =>
      (* line 159: routeUrl.replace(/^(get|post|pul|del|all)/i, empty) *)
      (Single (toLowerCase m),
       match matchAlternation replaceNames (fun _ => true) route with
       | Some (_, rest) => rest
       | None => route
       end)
  | None =>
      (* line 160: routeUrl.match(/^([adeglopstu,]+)\//i) *)
      let '(run, rest) := span isMethodChar route in
      if negb (isEmpty run) && startsWith "/"%char rest
      then
        (* line 162: the replace drops the leading run of class characters,
           which may be empty *)
        (Multiple (split ","%char (toLowerCase run)), rest)
      else (Single defaultMethod, route)
  end.

(** [theMethod.match(/^(get|post|put|del|all)$/i)] of [setDefaultMethod]. *)
Definition isMethodName (theMethod : string) : bool :=
  match matchAlternation methodNames isEmpty theMethod with
  | Some _ => true
  | None => false
  end.

End Parser.

(** ** Node's [path.join] (POSIX)

    The source calls [path.join] of the Node platform; this is its
    behaviour on two string arguments: the non-empty arguments are joined
    with a slash and the result is normalized. *)

Module Path.
Import Str.

(** [normalizeArray]: scanning from the right, [.] is dropped and each
    [..] cancels the nearest segment on its left; [up] counts the [..]
    still waiting for a segment to cancel. *)
Fixpoint normalizeParts (parts : list string) : list string * nat :=
  match parts with
  | [] => ([], 0)
  | p :: parts' =>
      let '(kept, up) := normalizeParts parts' in
      if String.eqb p "." then (kept, up)
      else if String.eqb p ".." then (kept, S up)
      else match up with
           | S up' => (kept, up')
           | O => (p :: kept, 0)
           end
  end.

Definition normalizeArray (parts : list string) (allowAboveRoot : bool) : list string :=
  let '(kept, up) := normalizeParts parts in
  if allowAboveRoot then replicate up ".." ++ kept else kept.

Fixpoint endsWith (c : ascii) (s : string) : bool :=
  match s with
  | EmptyString => false
  | String c' EmptyString => Ascii.eqb c' c
  | String _ s' => endsWith c s'
  end.

Definition normalize (path : string) : string :=
  let isAbsolute := startsWith "/"%char path in
  let trailingSlash := endsWith "/"%char path in
  let parts := filter (fun p => isEmpty p = false) (split "/"%char path) in
  let path1 := join "/" (normalizeArray parts (negb isAbsolute)) in
  let path2 := if isEmpty path1 && negb isAbsolute then "." else path1 in
  let path3 := if negb (isEmpty path2) && trailingSlash then path2 +:+ "/" else path2 in
  if isAbsolute then "/" +:+ path3 else path3.

Definition join (a b : string) : string :=
  normalize (Str.join "/" (filter (fun p => isEmpty p = false) [a; b])).

End Path.

(** ** Global replacement by a regular expression

    [s.replace(re, repl)] for a regular expression with the [g] flag whose
    matches are never empty.  [matcher t] tells whether the expression
    matches at the start of [t], and gives the matched text and what
    follows it. *)

Module Replace.
Import Str.

(** The replacement patterns of [String.prototype.replace]: [$$] is a
    dollar, [$&] the matched text, [$`] the text before the match and
    [$'] the text after it; the expressions of the source have no
    capture group, so a dollar before anything else stands for itself. *)
Fixpoint expand (repl matched before after : string) : string :=
  match repl with
  | EmptyString => EmptyString
  | String c repl' =>
      if Ascii.eqb c "$"%char then
        match repl' with
        | String d repl'' =>
            if Ascii.eqb d "$"%char then String "$"%char (expand repl'' matched before after)
            else if Ascii.eqb d "&"%char then matched +:+ expand repl'' matched before after
            else if Ascii.eqb d "`"%char then before +:+ expand repl'' matched before after
            else if Ascii.eqb d "'"%char then after +:+ expand repl'' matched before after
            else String c (expand repl' matched before after)
        | EmptyString => String c EmptyString
        end
      else String c (expand repl' matched before after)
  end.

(** The scan of a global replace.  [replacement matched before after]
    is the text put in place of a match.  [before] is the text already
    passed; [skip] counts the characters of the current match that are
    still to be passed over, so that the scan resumes right after the
    match. *)
Fixpoint scan (matcher : string -> option (string * string))
    (replacement : string -> string -> string -> string)
    (before : string) (skip : nat) (s : string) : string :=
  match s with
  | EmptyString => EmptyString
  | String c s' =>
      match skip with
      | S skip' => scan matcher replacement (before +:+ String c EmptyString) skip' s'
      | O =>
          match matcher s with
          | Some (matched, after) =>
              replacement matched before after
              +:+ scan matcher replacement (before +:+ String c EmptyString)
                    (String.length matched - 1) s'
          | None =>
              String c (scan matcher replacement (before +:+ String c EmptyString) 0 s')
          end
      end
  end.

(** [s.replace(re, repl)] with a replacement string. *)
Definition replaceAll (matcher : string -> option (string * string))
    (repl s : string) : string :=
  scan matcher (expand repl) EmptyString 0 s.

End Replace.

(** ** The URL generator's two expressions (lines 224 and 226) *)

Module Url.
Import Str.

(** A parameter name becomes part of the source of a regular expression,
    [new RegExp(":" + param + "\\?*", "g")].  The model reads names made
    of ordinary characters and of the dot, which matches any character
    but a line terminator; a name with another syntax character of
    regular expressions is outside the model. *)
Inductive ptok :=
| PChar (c : ascii)
| PAny.

Definition isSyntaxChar (c : ascii) : bool := charIn "\^$*+?()[]{}|" c.

Fixpoint paramPattern (param : string) : option (list ptok) :=
  match param with
  | EmptyString => Some []
  | String c param' =>
      if isSyntaxChar c then None
      else match paramPattern param' with
           | Some toks => Some ((if Ascii.eqb c "."%char then PAny else PChar c) :: toks)
           | None => None
           end
  end.

Definition isLineTerminator (c : ascii) : bool :=
  Ascii.eqb c "010"%char || Ascii.eqb c "013"%char.

Definition tokMatches (t : ptok) (c : ascii) : bool :=
  match t with
  | PChar a => Ascii.eqb a c
  | PAny => negb (isLineTerminator c)
  end.

Definition isQuestion (c : ascii) : bool := Ascii.eqb c "?"%char.

(** The tokens of the name, then as many question marks as follow. *)
Fixpoint matchToks (toks : list ptok) (s : string) : option (string * string) :=
  match toks with
  | [] => Some (span isQuestion s)
  | t :: toks' =>
      match s with
      | String c s' =>
          if tokMatches t c
          then match matchToks toks' s' with
               | Some (m, rest) => Some (String c m, rest)
               | None => None
               end
          else None
      | EmptyString => None
      end
  end.

(** [:param\?*] at the start of [s]. *)
Definition matchParam (toks : list ptok) (s : string) : option (string * string) :=
  match s with
  | String c s' =>
      if Ascii.eqb c ":"%char
      then match matchToks toks s' with
           | Some (m, rest) => Some (String c m, rest)
           | None => None
           end
      else None
  | EmptyString => None
  end.

(** [:[^\?]*\?] at the start of [s]: a colon, everything up to the next
    question mark, and that question mark. *)
Definition matchOptional (s : string) : option (string * string) :=
  match s with
  | String c s' =>
      if Ascii.eqb c ":"%char
      then let '(run, rest) := span (fun x => negb (isQuestion x)) s' in
           match rest with
           | String q rest' => Some (String c (run +:+ String q EmptyString), rest')
           | EmptyString => None
           end
      else None
  | EmptyString => None
  end.

(** Line 224, for one parameter. *)
Definition substitute (param value thePath : string) : option string :=
  match paramPattern param with
  | Some toks => Some (Replace.replaceAll (matchParam toks) value thePath)
  | None => None
  end.

(** Line 226. *)
Definition stripOptional (thePath : string) : string :=
  Replace.replaceAll matchOptional EmptyString thePath.

End Url.

(** ** Values, the world and the monad of effects *)

Module Js.
Import Str.

(** The numbers that a [depth] counter takes: integers, [Infinity], and
    [NaN] (what decrementing [undefined] leaves).  Fractions and
    [-Infinity] are outside the model. *)
Inductive num :=
| Fin (z : Z)
| Inf
| NaN.

Definition numFalsy (n : num) : bool :=
  match n with
  | Fin z => Z.eqb z 0
  | Inf => false
  | NaN => true
  end.

Definition numNegative (n : num) : bool :=
  match n with
  | Fin z => Z.ltb z 0
  | Inf | NaN => false
  end.

Definition numDecr (n : num) : num :=
  match n with
  | Fin z => Fin (z - 1)
  | Inf => Inf
  | NaN => NaN
  end.

(** A [depth] property: absent ([undefined]) or a number. *)
Definition depthFalsy (d : option num) : bool :=
  match d with
  | None => true
  | Some n => numFalsy n
  end.

(** [d < 0]; [undefined < 0] is false. *)
Definition depthNegative (d : option num) : bool :=
  match d with
  | None => false
  | Some n => numNegative n
  end.

(** [d--]; [undefined] becomes [NaN]. *)
Definition depthDecr (d : option num) : num :=
  match d with
  | None => NaN
  | Some n => numDecr n
  end.

(** A String object ([new String(s)]), with its optional [depth]
    property.  String objects are shared by reference: they live in the
    heap of the world and values refer to them by their location. *)
Record boxed := Boxed { bstr : string; bdepth : option num }.

(** The values of a route tree.  [JObj] is a plain object, given by its
    own enumerable properties in the order [for..in] visits them.
    Plain objects and arrays of the tree are passed by value: the model
    does not cover one object reachable through two keys. *)
Inductive jsval :=
| JUndef
| JNum (n : num)
| JStr (s : string)
| JBoxed (l : nat)
| JArr (vs : list jsval)
| JObj (kvs : list (string * jsval))
| JFun.

Definition truthy (v : jsval) : bool :=
  match v with
  | JUndef => false
  | JNum n => negb (numFalsy n)
  | JStr s => negb (isEmpty s)
  | JBoxed _ | JArr _ | JObj _ | JFun => true
  end.

Fixpoint lookupKey {A : Type} (k : string) (kvs : list (string * A)) : option A :=
  match kvs with
  | [] => None
  | (k', v) :: kvs' => if String.eqb k' k then Some v else lookupKey k kvs'
  end.

(** Assignment to a property: an existing property keeps its place in
    the enumeration, a new one comes last. *)
Fixpoint setKey {A : Type} (k : string) (v : A) (kvs : list (string * A))
  : list (string * A) :=
  match kvs with
  | [] => [(k, v)]
  | (k', v') :: kvs' =>
      if String.eqb k' k then (k', v) :: kvs' else (k', v') :: setKey k v kvs'
  end.

(** [v.k] for the property names the source reads ([required], [depth],
    [prefix], [postfix]) on a plain object or a primitive. *)
Definition getProp (v : jsval) (k : string) : jsval :=
  match v with
  | JObj kvs => default JUndef (lookupKey k kvs)
  | _ => JUndef
  end.

(** The controller namespace: functions, named here by a label, in
    nested objects.  Inherited members are not part of the namespace. *)
Inductive ctrl :=
| CFun (f : string)
| CObj (members : list (string * ctrl)).

(** One call [express[method](path, controller, ...)]. *)
Record binding := Binding { bmethod : string; bpath : string; bchain : list ctrl }.

(** The Express server: the routing methods it has, and the calls made
    to them.  Its other members, such as [use] and [set], are not part of
    the model. *)
Record server := Server { verbs : list string; routes : list binding }.

Record world := World {
  controllerToPathHash : gmap string string;
  defaultMethod : string;
  heap : list boxed;
  app : server
}.

Inductive error :=
| InvalidControllerPath (hierarchy : list string)
| InvalidRouteDefinition
| InvalidControllerRequested
| MissingParameters (thePath : string)
| InvalidMethodName (theMethod : string)
| TypeError.

Inductive result (A : Type) :=
| Ok (a : A)
| Throw (e : error)
| Unsupported
| OutOfFuel.
Arguments Ok {A} a.
Arguments Throw {A} e.
Arguments Unsupported {A}.
Arguments OutOfFuel {A}.

Definition M (A : Type) : Type := world -> result A * world.

Definition ret {A : Type} (a : A) : M A := fun w => (Ok a, w).

Definition bind {A B : Type} (m : M A) (k : A -> M B) : M B :=
  fun w =>
    match m w with
    | (Ok a, w') => k a w'
    | (Throw e, w') => (Throw e, w')
    | (Unsupported, w') => (Unsupported, w')
    | (OutOfFuel, w') => (OutOfFuel, w')
    end.

Definition throw {A : Type} (e : error) : M A := fun w => (Throw e, w).
Definition unsupported {A : Type} : M A := fun w => (Unsupported, w).
Definition outOfFuel {A : Type} : M A := fun w => (OutOfFuel, w).
Definition getWorld : M world := fun w => (Ok w, w).
Definition putWorld (w : world) : M unit := fun _ => (Ok tt, w).

(** A partial reading of the input: [None] is outside the model. *)
Definition modelled {A : Type} (o : option A) : M A :=
  match o with
  | Some a => ret a
  | None => unsupported
  end.

Definition setHash (t : gmap string string) (w : world) : world :=
  World t (defaultMethod w) (heap w) (app w).
Definition setDefault (m : string) (w : world) : world :=
  World (controllerToPathHash w) m (heap w) (app w).
Definition setHeap (h : list boxed) (w : world) : world :=
  World (controllerToPathHash w) (defaultMethod w) h (app w).
Definition setApp (a : server) (w : world) : world :=
  World (controllerToPathHash w) (defaultMethod w) (heap w) a.

End Js.

Declare Scope js_scope.
Delimit Scope js_scope with js.
Notation "x <- m ;; k" := (Js.bind m (fun x => k))
  (at level 100, m at next level, right associativity) : js_scope.
Notation "m ;; k" := (Js.bind m (fun _ => k))
  (at level 100, right associativity) : js_scope.

(** ** The [required] controllers (lines 119-144 of [buildRoutes]) *)

Module Required.
Import Str Js.
Local Open Scope js_scope.

(** An element of [required.prefix] or [required.postfix]: a primitive
    string, or a String object. *)
Inductive entry :=
| EPlain (s : string)
| ERef (l : nat).

(** [required.postfix] is an array, or a string once a [postfix]
    declared as a string has been concatenated (line 128). *)
Inductive postfixList :=
| PArr (es : list entry)
| PStr (s : string).

(** The object [required] that [buildRoutes] receives and passes on. *)
Record required := Required { prefix : list entry; postfix : postfixList }.

Definition asEntry (v : jsval) : option entry :=
  match v with
  | JStr s => Some (EPlain s)
  | JBoxed l => Some (ERef l)
  | _ => None
  end.

Fixpoint asEntries (vs : list jsval) : option (list entry) :=
  match vs with
  | [] => Some []
  | v :: vs' =>
      match asEntry v, asEntries vs' with
      | Some e, Some es => Some (e :: es)
      | _, _ => None
      end
  end.

(** What a group declares under [required.prefix] or [required.postfix]:
    nothing (a falsy value), a string, a String object, or an array of
    strings and String objects.  Other values are outside the model. *)
Inductive decl :=
| DAbsent
| DStr (s : string)
| DBoxed (l : nat)
| DArr (es : list entry).

Definition asDecl (v : jsval) : option decl :=
  if truthy v then
    match v with
    | JStr s => Some (DStr s)
    | JBoxed l => Some (DBoxed l)
    | JArr vs => option_map DArr (asEntries vs)
    | _ => None
    end
  else Some DAbsent.

(** The string an entry converts to, as a property key and for [split]. *)
Definition entryName (h : list boxed) (e : entry) : option string :=
  match e with
  | EPlain s => Some s
  | ERef l => option_map bstr (h !! l)
  end.

Fixpoint entryNames (h : list boxed) (es : list entry) : option (list string) :=
  match es with
  | [] => Some []
  | e :: es' =>
      match entryName h e, entryNames h es' with
      | Some n, Some ns => Some (n :: ns)
      | _, _ => None
      end
  end.

(** Line 127: [required.prefix.concat(routeObj.required.prefix)]. *)
Definition concatPrefix (acc : list entry) (d : decl) : list entry :=
  match d with
  | DAbsent => acc
  | DStr s => acc ++ [EPlain s]
  | DBoxed l => acc ++ [ERef l]
  | DArr es => acc ++ es
  end.

(** An array argument of [concat] is spread, a string is one element. *)
Definition postfixEntries (p : postfixList) : list entry :=
  match p with
  | PArr es => es
  | PStr s => [EPlain s]
  end.

(** [toString] of [required.postfix]: an array joins its elements with
    commas. *)
Definition postfixToString (h : list boxed) (p : postfixList) : option string :=
  match p with
  | PStr s => Some s
  | PArr es => option_map (join ",") (entryNames h es)
  end.

(** Line 128: [routeObj.required.postfix.concat(required.postfix)].  The
    receiver decides: on an array this is [Array.prototype.concat], on a
    string or a String object it is [String.prototype.concat], which
    appends the argument converted to a string. *)
Definition concatPostfix (h : list boxed) (d : decl) (acc : postfixList)
  : option postfixList :=
  match d with
  | DAbsent => Some acc
  | DArr es => Some (PArr (es ++ postfixEntries acc))
  | DStr s => option_map (fun t => PStr (s +:+ t)) (postfixToString h acc)
  | DBoxed l =>
      match h !! l, postfixToString h acc with
      | Some b, Some t => Some (PStr (bstr b +:+ t))
      | _, _ => None
      end
  end.

(** [adjustDepth] on an array (lines 131-142), with [depth] the value
    of [routeObj.required.depth].  An element that is not an object is
    replaced by a new String object; an element without a truthy [depth]
    takes [depth]; an element whose [depth] is negative is spliced out,
    the others have their [depth] decremented. *)
Fixpoint adjustDepth (depth : option num) (objArray : list entry) (h : list boxed)
  : option (list entry * list boxed) :=
  match objArray with
  | [] => Some ([], h)
  | e :: rest =>
      let '(l, h1) :=
        match e with
        | EPlain s => (List.length h, h ++ [Boxed s None])
        | ERef l => (l, h)
        end in
      match h1 !! l with
      | None => None
      | Some b =>
          let d := if depthFalsy (bdepth b) then depth else bdepth b in
          if depthNegative d
          then adjustDepth depth rest (<[l := Boxed (bstr b) d]> h1)
          else
            match adjustDepth depth rest
                    (<[l := Boxed (bstr b) (Some (depthDecr d))]> h1) with
            | Some (rest', h2) => Some (ERef l :: rest', h2)
            | None => None
            end
      end
  end.

Definition adjustPrefix (depth : option num) (objArray : list entry)
  : M (list entry) :=
  w <- getWorld ;;
  match adjustDepth depth objArray (heap w) with
  | Some (objArray', h) => putWorld (setHeap h w) ;; ret objArray'
  | None => unsupported
  end.

(** [adjustDepth] on [required.postfix].  On a string every step of the
    loop assigns to a property of a primitive, which has no effect. *)
Definition adjustPostfix (depth : option num) (p : postfixList) : M postfixList :=
  match p with
  | PArr es => es' <- adjustPrefix depth es ;; ret (PArr es')
  | PStr s => ret (PStr s)
  end.

(** [{prefix: [], postfix: []}] *)
Definition emptyRequired : jsval := JObj [("prefix", JArr []); ("postfix", JArr [])].

(** Line 124 on the value of [routeObj.required], which is truthy there:
    a plain object without a truthy [depth] receives [Infinity]; on a
    primitive the assignment has no effect.  A [depth] that is truthy
    and not a number, and a value that is an array, a function or a
    String object, are outside the model. *)
Definition defaultDepth (r : jsval) : option jsval :=
  match r with
  | JObj kvs =>
      if truthy (getProp r "depth")
      then match getProp r "depth" with
           | JNum _ => Some r
           | _ => None
           end
      else Some (JObj (setKey "depth" (JNum Inf) kvs))
  | JStr _ | JNum _ => Some r
  | _ => None
  end.

(** [routeObj.required.depth] after line 124. *)
Definition depthOf (r : jsval) : option num :=
  match getProp r "depth" with
  | JNum n => Some n
  | _ => None
  end.

End Required.

(** ** The tree compiler and the public operations *)

Module Router.
Import Str Js Parser Required.
Local Open Scope js_scope.

(** *** [getController] (lines 100-111) *)

Fixpoint walk (controller : ctrl) (hierarchy : list string) : option ctrl :=
  match hierarchy with
  | [] => Some controller
  | h :: hierarchy' =>
      match controller with
      | CObj members =>
          match lookupKey h members with
          | Some c => walk c hierarchy'
          | None => None
          end
      | CFun _ => None
      end
  end.

Definition getController (controllers : ctrl) (controllerRoute : string) : M ctrl :=
  let hierarchy := split "." controllerRoute in
  match walk controllers hierarchy with
  | Some controller => ret controller
  | None => throw (InvalidControllerPath hierarchy)
  end.

(** *** The object [controllerToPathHash]

    It is created as [{}], so a name that it does not hold itself is
    looked up in [Object.prototype]; and an assignment to [__proto__]
    with a string creates no property. *)

Definition objectPrototype : list string :=
  ["constructor"; "toString"; "toLocaleString"; "valueOf"; "hasOwnProperty";
   "isPrototypeOf"; "propertyIsEnumerable"; "__defineGetter__";
   "__defineSetter__"; "__lookupGetter__"; "__lookupSetter__"; "__proto__"].

Inductive hashValue :=
| HPath (thePath : string)
| HInherited
| HUndefined.

Definition hashGet (t : gmap string string) (k : string) : hashValue :=
  if String.eqb k "__proto__" then HInherited
  else match t !! k with
       | Some p => HPath p
       | None => if existsb (String.eqb k) objectPrototype then HInherited else HUndefined
       end.

Definition hashSet (k p : string) (t : gmap string string) : gmap string string :=
  if String.eqb k "__proto__" then t else <[k := p]> t.

(** *** A leaf of the route tree (lines 151-190) *)

(** Lines 175-178: each name is recorded in [controllerToPathHash] and
    then resolved, in order; a name that does not resolve throws after
    it has been recorded. *)
Fixpoint resolveAll (controllers : ctrl) (routeUrl : string) (expressCall : list entry)
  : M (list ctrl) :=
  match expressCall with
  | [] => ret []
  | e :: expressCall' =>
      w <- getWorld ;;
      name <- modelled (entryName (heap w) e) ;;
      putWorld (setHash (hashSet name routeUrl (controllerToPathHash w)) w) ;;
      c <- getController controllers name ;;
      cs <- resolveAll controllers routeUrl expressCall' ;;
      ret (c :: cs)
  end.

(** [express[method].apply(express, expressCall)]: a method that the
    server does not have is [undefined], and calling [apply] on it is a
    type error. *)
Definition expressApply (method routeUrl : string) (chain : list ctrl) : M unit :=
  w <- getWorld ;;
  if existsb (String.eqb method) (verbs (app w))
  then putWorld (setApp (Server (verbs (app w))
                           (routes (app w) ++ [Binding method routeUrl chain])) w)
  else throw TypeError.

Fixpoint expressApplyEach (methods : list string) (routeUrl : string) (chain : list ctrl)
  : M unit :=
  match methods with
  | [] => ret tt
  | method :: methods' =>
      expressApply method routeUrl chain ;;
      expressApplyEach methods' routeUrl chain
  end.

(** The names of a leaf: a string, or the elements of an array. *)
Definition ownEntries (v : jsval) : option (list entry) :=
  match v with
  | JStr s => Some [EPlain s]
  | JArr vs => asEntries vs
  | _ => None
  end.

(** Lines 166 and 169. *)
Definition leafUrl (currPath routeUrl : string) : string :=
  let routeUrl1 := if isEmpty currPath then routeUrl else Path.join currPath routeUrl in
  if String.eqb routeUrl1 "/" then "/" else removeTrailingSlash routeUrl1.

(** Line 172. *)
Definition expressCallOf (req : required) (own : list entry) : list entry :=
  prefix req ++ own ++ postfixEntries (postfix req).

Definition buildLeaf (controllers : ctrl) (currPath route : string) (v : jsval)
    (req : required) : M unit :=
  w <- getWorld ;;
  let '(theMethod, routeUrl0) := parseRouteKey (defaultMethod w) route in
  let routeUrl := leafUrl currPath routeUrl0 in
  own <- modelled (ownEntries v) ;;
  chain <- resolveAll controllers routeUrl (expressCallOf req own) ;;
  match theMethod with
  | Multiple methods => expressApplyEach methods routeUrl chain
  | Single method => expressApply method routeUrl chain
  end.

(** *** The loop over the routes of a group (lines 147-198)

    [recurse] is the recursive call of [buildRoutes].  The loop returns
    the properties with the child groups as the recursive calls left
    them, and the object [required], which those calls share.

    The test of line 192 holds of plain objects only.  A function or a
    String object fails it and is an invalid route definition; on
    [undefined] and on a number [Object.getPrototypeOf] throws a type
    error (as ECMAScript 5 has it for a number). *)
Fixpoint routeLoop (recurse : jsval -> string -> required -> M (jsval * required))
    (controllers : ctrl) (currPath : string) (kvs : list (string * jsval))
    (req : required) : M (list (string * jsval) * required) :=
  match kvs with
  | [] => ret ([], req)
  | (route, v) :: kvs' =>
      if String.eqb route "required"
      then
        out <- routeLoop recurse controllers currPath kvs' req ;;
        ret ((route, v) :: fst out, snd out)
      else
        match v with
        | JStr _ | JArr _ =>
            buildLeaf controllers currPath route v req ;;
            out <- routeLoop recurse controllers currPath kvs' req ;;
            ret ((route, v) :: fst out, snd out)
        | JObj _ =>
            sub <- recurse v (Path.join currPath route) req ;;
            out <- routeLoop recurse controllers currPath kvs' (snd sub) ;;
            ret ((route, fst sub) :: fst out, snd out)
        | JBoxed _ | JFun => throw InvalidRouteDefinition
        | JUndef | JNum _ => throw TypeError
        end
  end.

(** *** [buildRoutes] (lines 118-199)

    [fuel] bounds the depth of the recursion.  The result is the route
    object as the call leaves it and the object [required]. *)
Fixpoint buildRoutes (fuel : nat) (controllers : ctrl) (routeObj : jsval)
    (currPath : string) (required : option Required.required)
  : M (jsval * Required.required) :=
  match fuel with
  | O => outOfFuel
  | S fuel' =>
      match routeObj with
      | JObj kvs =>
          (* line 120 *)
          let req := default (Required [] (PArr [])) required in
          (* line 121 *)
          let kvs1 :=
            if truthy (getProp routeObj "required") then kvs
            else setKey "required" emptyRequired kvs in
          (* line 124 *)
          r <- modelled (defaultDepth (getProp (JObj kvs1) "required")) ;;
          let kvs2 := setKey "required" r kvs1 in
          (* lines 127 and 128 *)
          dpre <- modelled (asDecl (getProp r "prefix")) ;;
          dpost <- modelled (asDecl (getProp r "postfix")) ;;
          w <- getWorld ;;
          let pre := concatPrefix (prefix req) dpre in
          post <- modelled (concatPostfix (heap w) dpost (postfix req)) ;;
          (* lines 143 and 144 *)
          pre' <- adjustPrefix (depthOf r) pre ;;
          post' <- adjustPostfix (depthOf r) post ;;
          (* lines 147-198 *)
          out <- routeLoop (fun v p q => buildRoutes fuel' controllers v p (Some q))
                   controllers currPath kvs2 (Required pre' post') ;;
          ret (JObj (fst out), snd out)
      | _ => unsupported
      end
  end.

(** The nesting depth of a value, which bounds the recursion. *)
Fixpoint height (v : jsval) : nat :=
  match v with
  | JObj kvs =>
      S ((fix heights (kvs : list (string * jsval)) : nat :=
            match kvs with
            | [] => 0
            | kv :: kvs' => Nat.max (height (snd kv)) (heights kvs')
            end) kvs)
  | _ => 0
  end.

(** *** [registerRoutes] (lines 204-215)

    The controllers are given: loading them from the file system, and
    the checks on the arguments, are outside the model.  The result is
    the route tree as registration leaves it. *)
Definition registerRoutes (pathToControllerTree : jsval) (controllers : ctrl) : M jsval :=
  out <- buildRoutes (S (height pathToControllerTree)) controllers
           pathToControllerTree "" None ;;
  ret (fst out).

(** *** [getControllerUrl] (lines 220-232) *)

Fixpoint substituteAll (params : list (string * string)) (thePath : string)
  : option string :=
  match params with
  | [] => Some thePath
  | (param, value) :: params' =>
      match Url.substitute param value thePath with
      | Some thePath' => substituteAll params' thePath'
      | None => None
      end
  end.

Definition getControllerUrl (controller : string) (params : list (string * string))
  : M string :=
  w <- getWorld ;;
  match hashGet (controllerToPathHash w) controller with
  | HUndefined => throw InvalidControllerRequested
  | HInherited =>
      (* an inherited member is not a string and has no [replace] *)
      match params with
      | [] => throw TypeError
      | (param, _) :: _ =>
          match Url.paramPattern param with
          | Some _ => throw TypeError
          | None => unsupported
          end
      end
  | HPath thePath =>
      if isEmpty thePath then throw InvalidControllerRequested
      else
        thePath1 <- modelled (substituteAll params thePath) ;;
        let thePath2 := Url.stripOptional thePath1 in
        if contains ":" thePath2 then throw (MissingParameters thePath2)
        else ret (Path.join "" thePath2)
  end.

(** *** [setDefaultMethod] (lines 235-241) *)
Definition setDefaultMethod (theMethod : string) : M unit :=
  if isMethodName theMethod
  then w <- getWorld ;; putWorld (setDefault (toLowerCase theMethod) w)
  else throw (InvalidMethodName theMethod).

(** *** [DepthString] (lines 248-258): a new String object with a
    [depth]; of two arguments of the same type the second wins. *)
Definition DepthString (a0 a1 : jsval) : M jsval :=
  let str0 := match a0 with JStr s => s | _ => "" end in
  let str := match a1 with JStr s => s | _ => str0 end in
  let dpt0 := match a0 with JNum n => n | _ => Inf end in
  let dpt := match a1 with JNum n => n | _ => dpt0 end in
  w <- getWorld ;;
  putWorld (setHeap (heap w ++ [Boxed str (Some dpt)]) w) ;;
  ret (JBoxed (List.length (heap w))).

End Router.

(** ** The specification's wording

    Definitions that follow the words of the specification, to compare
    with the definitions taken from the source. *)

Module Spec.
Import Str.

(** The method names of the specification. *)
Definition methods : list string := ["get"; "post"; "put"; "delete"; "all"].

Definition isMethod (m : string) : bool :=
  existsb (String.eqb (toLowerCase m)) methods.

Definition notSlash (c : ascii) : bool := negb (Ascii.eqb c "/").

(** The segment of a route key before its first slash. *)
Definition leadingSegment (key : string) : string := fst (span notSlash key).

(** The parser of section 4.1: a comma-separated list of method names
    followed by a slash is stripped and gives the methods; any other key
    gets the default method and is kept whole. *)
Definition parseRouteKey (defaultMethod key : string) : list string * string :=
  let '(seg, rest) := span notSlash key in
  if startsWith "/" rest && forallb isMethod (split "," seg)
  then (map toLowerCase (split "," seg), rest)
  else ([defaultMethod], key).

(** A literal occurrence of [:param], with the question marks after it. *)
Definition matchLiteral (param s : string) : option (string * string) :=
  match stripPrefix (String ":" param) s with
  | Some rest =>
      let '(marks, rest') := span Url.isQuestion rest in
      Some (String ":" param +:+ marks, rest')
  | None => None
  end.

(** Section 4.5: every occurrence of the placeholder is replaced by the
    value, literally. *)
Definition replaceLiteral (param value thePath : string) : string :=
  Replace.scan (matchLiteral param) (fun _ _ _ => value) EmptyString 0 thePath.

Fixpoint substituteAll (params : list (string * string)) (thePath : string) : string :=
  match params with
  | [] => thePath
  | (param, value) :: params' => substituteAll params' (replaceLiteral param value thePath)
  end.

(** A placeholder name holds no colon, question mark or slash. *)
Definition isNameChar (c : ascii) : bool :=
  negb (Ascii.eqb c ":" || Ascii.eqb c "?" || Ascii.eqb c "/").

(** An optional placeholder [:name?] at the start of [s]. *)
Definition matchPlaceholder (s : string) : option (string * string) :=
  match s with
  | String c s' =>
      if Ascii.eqb c ":"
      then let '(name, rest) := span isNameChar s' in
           match rest with
           | String q rest' =>
               if Ascii.eqb q "?"
               then Some (String c (name +:+ String q EmptyString), rest')
               else None
           | EmptyString => None
           end
      else None
  | EmptyString => None
  end.

(** The optional placeholders are removed, and nothing else. *)
Definition stripPlaceholders (thePath : string) : string :=
  Replace.scan matchPlaceholder (fun _ _ _ => EmptyString) EmptyString 0 thePath.

(** At the start of [s] there is no colon, or no question mark follows
    it, or only name characters stand between the two. *)
Definition cleanAt (s : string) : bool :=
  match s with
  | String c s' =>
      if Ascii.eqb c ":"
      then let '(run, rest) := span (fun x => negb (Url.isQuestion x)) s' in
           isEmpty rest || all isNameChar run
      else true
  | EmptyString => true
  end.

(** [cleanAt] at every position of the path. *)
Fixpoint cleanPlaceholders (s : string) : bool :=
  cleanAt s &&
  match s with
  | String _ s' => cleanPlaceholders s'
  | EmptyString => true
  end.

(** A parameter name without any character that is special in a
    regular expression. *)
Definition literalName (param : string) : bool :=
  all (fun c => negb (Url.isSyntaxChar c || Ascii.eqb c ".")) param.

(** What registration does to the route tree: every group that is
    visited gets a [required] object when it has none, and a [required]
    object without a truthy [depth] gets [Infinity]. *)
Definition markGroup (kvs : list (string * Js.jsval)) : list (string * Js.jsval) :=
  let kvs1 :=
    if Js.truthy (Js.getProp (Js.JObj kvs) "required") then kvs
    else Js.setKey "required" Required.emptyRequired kvs in
  match Required.defaultDepth (Js.getProp (Js.JObj kvs1) "required") with
  | Some r => Js.setKey "required" r kvs1
  | None => kvs1
  end.

(** The children of a group other than [required]. *)
Definition markChildren (f : Js.jsval -> Js.jsval) (kvs : list (string * Js.jsval))
  : list (string * Js.jsval) :=
  map (fun kv => (fst kv, if String.eqb (fst kv) "required" then snd kv else f (snd kv)))
      kvs.

Fixpoint markRequired (v : Js.jsval) : Js.jsval :=
  match v with
  | Js.JObj kvs => Js.JObj (markGroup (markChildren markRequired kvs))
  | _ => v
  end.

End Spec.

(** ** Fixtures: the controllers and the server of the test suite *)

Module Fixture.
Import Js.

Definition controllers : ctrl :=
  CObj [("test", CFun "test");
        ("intercept", CFun "intercept");
        ("donotintercept", CFun "donotintercept");
        ("depth", CObj [("test", CFun "depth.test")])].

Definition createServer : server :=
  Server ["get"; "post"; "put"; "del"; "delete"; "all"] [].

(** The state of a fresh module and a fresh server. *)
Definition initial : world := World empty "get" [] createServer.

(** The chains registered by a run, by method and path. *)
Definition registered (run : result jsval * world) : list binding :=
  routes (app (snd run)).


(** Controllers for the URL generator's examples. *)
Definition namedControllers : ctrl :=
  CObj [("name", CFun "name"); ("index", CFun "index")].

(** The group [/nodepth] of the test suite: a prefix with [depth: 0]. *)
Definition nodepthTree : jsval :=
  JObj [("/nodepth",
         JObj [("required", JObj [("prefix", JStr "intercept"); ("depth", JNum (Fin 0))]);
               ("/test", JStr "test");
               ("/depth", JObj [("/test", JStr "test")])])].

(** The same with the depth on the entry, [DepthString('intercept', 0)],
    which is the String object at location 0. *)
Definition depthStringTree : jsval :=
  JObj [("/nodepth",
         JObj [("required", JObj [("prefix", JArr [JBoxed 0])]);
               ("/test", JStr "test");
               ("/depth", JObj [("/test", JStr "test")])])].

(** Two sibling groups, each with its own postfix list. *)
Definition siblingTree : jsval :=
  JObj [("/a", JObj [("required", JObj [("postfix", JArr [JStr "intercept"])]);
                     ("/x", JStr "test")]);
        ("/b", JObj [("required", JObj [("postfix", JArr [JStr "donotintercept"])]);
                     ("/y", JStr "test")])].

(** The groups [/prefix] and [/postfix] of the test suite. *)
Definition prefixPostfixTree : jsval :=
  JObj [("/prefix", JObj [("required", JObj [("prefix", JStr "intercept")]);
                          ("/test", JStr "test")]);
        ("/postfix", JObj [("required", JObj [("postfix", JStr "intercept")]);
                           ("/test", JStr "test");
                           ("/donotintercept", JStr "donotintercept")])].

(** A postfix declared as a string, below a group that has a postfix. *)
Definition nestedPostfixTree : jsval :=
  JObj [("/a", JObj [("required", JObj [("postfix", JArr [JStr "intercept"])]);
                     ("/b", JObj [("required", JObj [("postfix", JStr "test")]);
                                  ("/c", JStr "donotintercept")])])].


(** A group whose prefix is [DepthString('intercept', 2)], the String
    object at location 0. *)
Definition boxedTree : jsval :=
  JObj [("required", JObj [("prefix", JArr [JBoxed 0]); ("depth", JNum (Fin 3))]);
        ("/test", JStr "test")].



End Fixture.

(** ** Notions used to state the properties *)

Module Obs.
Import Str Js.

(** The route keys of a group: every key but [required]. *)
Definition notRequired (kv : string * jsval) : bool :=
  negb (String.eqb (fst kv) "required").

(** A function applied to the value an operation returns. *)
Definition onOutput {A B : Type} (f : A -> B) (r : result A * world) : result B * world :=
  (match fst r with
   | Ok a => Ok (f a)
   | Throw e => Throw e
   | Unsupported => Unsupported
   | OutOfFuel => OutOfFuel
   end, snd r).

(** [m] returns only values that satisfy [P]. *)
Definition returns {A : Type} (m : M A) (P : A -> Prop) : Prop :=
  forall w a w', m w = (Ok a, w') -> P a.

(** [m] never stops for lack of fuel. *)
Definition fuelled {A : Type} (m : M A) : Prop := forall w, fst (m w) <> OutOfFuel.

(** The method names that the two expressions of the parser accept
    between commas: [del] is the routing method of Express for DELETE. *)
Definition acceptedMethods : list string :=
  ["get"; "post"; "put"; "del"; "delete"; "all"].

Definition accepted (m : string) : bool :=
  existsb (String.eqb (toLowerCase m)) acceptedMethods.

(** The pattern of a parameter name without special characters. *)
Fixpoint literalToks (param : string) : list Url.ptok :=
  match param with
  | EmptyString => []
  | String c param' => Url.PChar c :: literalToks param'
  end.

(** A parameter whose name and value are taken literally. *)
Definition literalParam (kv : string * string) : bool :=
  Spec.literalName (fst kv) && negb (contains "$" (snd kv)).

(** The controller that a name resolves to. *)
Definition resolves (controllers : ctrl) (name : string) (c : ctrl) : Prop :=
  Router.walk controllers (split "." name) = Some c.

(** The leading segment of a route key is not a run of the characters
    of the class [adeglopstu,] followed by a slash. *)
Definition noMethodPrefix (route : string) : Prop :=
  contains "/" route = false \/ Spec.leadingSegment route = EmptyString \/
  all Parser.isMethodChar (Spec.leadingSegment route) = false.

End Obs.

(** ** The route tree as a call leaves it

    [buildRoutes] writes into the route object that it is given (lines
    121 and 124), so what it has written stays when it throws later.
    These are [routeLoop], [buildRoutes] and [registerRoutes] once more,
    with the route object as the call leaves it given for every
    outcome. *)

Module InPlace.
Import Str Js Parser Required.
Local Open Scope js_scope.

(** The route object left, the outcome, and the state left. *)
Definition run (T A : Type) : Type := T * (result A * world).

(** The outcome of [Router]'s operation: the route object is part of
    the value that is returned. *)
Definition returned {T A : Type} (r : run T A) : result (T * A) * world :=
  (match fst (snd r) with
   | Ok a => Ok (fst r, a)
   | Throw e => Throw e
   | Unsupported => Unsupported
   | OutOfFuel => OutOfFuel
   end, snd (snd r)).

(** Lines 147-198. *)
Fixpoint routeLoop (recurse : jsval -> string -> required -> world -> run jsval required)
    (controllers : ctrl) (currPath : string) (kvs : list (string * jsval))
    (req : required) (w : world) : run (list (string * jsval)) required :=
  match kvs with
  | [] => ([], (Ok req, w))
  | (route, v) :: kvs' =>
      if String.eqb route "required"
      then
        let out := routeLoop recurse controllers currPath kvs' req w in
        ((route, v) :: fst out, snd out)
      else
        match v with
        | JStr _ | JArr _ =>
            match Router.buildLeaf controllers currPath route v req w with
            | (Ok _, w1) =>
                let out := routeLoop recurse controllers currPath kvs' req w1 in
                ((route, v) :: fst out, snd out)
            | (Throw e, w1) => (kvs, (Throw e, w1))
            | (Unsupported, w1) => (kvs, (Unsupported, w1))
            | (OutOfFuel, w1) => (kvs, (OutOfFuel, w1))
            end
        | JObj _ =>
            let sub := recurse v (Path.join currPath route) req w in
            match fst (snd sub) with
            | Ok req1 =>
                let out := routeLoop recurse controllers currPath kvs' req1 (snd (snd sub)) in
                ((route, fst sub) :: fst out, snd out)
            | _ => ((route, fst sub) :: kvs', snd sub)
            end
        | JBoxed _ | JFun => (kvs, (Throw InvalidRouteDefinition, w))
        | JUndef | JNum _ => (kvs, (Throw TypeError, w))
        end
  end.

(** Lines 127-144: the object [required] for this group. *)
Definition accumulate (r : jsval) (req : required) : M required :=
  dpre <- modelled (asDecl (getProp r "prefix")) ;;
  dpost <- modelled (asDecl (getProp r "postfix")) ;;
  w <- getWorld ;;
  let pre := concatPrefix (prefix req) dpre in
  post <- modelled (concatPostfix (heap w) dpost (postfix req)) ;;
  pre' <- adjustPrefix (depthOf r) pre ;;
  post' <- adjustPostfix (depthOf r) post ;;
  ret (Required pre' post').

(** Lines 118-199. *)
Fixpoint buildRoutes (fuel : nat) (controllers : ctrl) (routeObj : jsval)
    (currPath : string) (required : option Required.required) (w : world)
  : run jsval Required.required :=
  match fuel with
  | O => (routeObj, (OutOfFuel, w))
  | S fuel' =>
      match routeObj with
      | JObj kvs =>
          let req := default (Required [] (PArr [])) required in
          let kvs1 :=
            if truthy (getProp routeObj "required") then kvs
            else setKey "required" emptyRequired kvs in
          match defaultDepth (getProp (JObj kvs1) "required") with
          | Some r =>
              let kvs2 := setKey "required" r kvs1 in
              match accumulate r req w with
              | (Ok req', w1) =>
                  let out := routeLoop (fun v p q => buildRoutes fuel' controllers v p (Some q))
                               controllers currPath kvs2 req' w1 in
                  (JObj (fst out), snd out)
              | (Throw e, w1) => (JObj kvs2, (Throw e, w1))
              | (Unsupported, w1) => (JObj kvs2, (Unsupported, w1))
              | (OutOfFuel, w1) => (JObj kvs2, (OutOfFuel, w1))
              end
          | None => (JObj kvs1, (Unsupported, w))
          end
      | _ => (routeObj, (Unsupported, w))
      end
  end.

(** Lines 204-215, with the controllers given. *)
Definition registerRoutes (pathToControllerTree : jsval) (controllers : ctrl) (w : world)
  : run jsval Required.required :=
  buildRoutes (S (Router.height pathToControllerTree)) controllers pathToControllerTree "" None w.

End InPlace.

(** ** What registration may change *)

Module Change.
Import Str Js Required.


(** Lines 134-140 on the [depth] of one String object, in a group whose
    depth is [depth]: a falsy [depth] is replaced by that of the group,
    and a [depth] that is not negative then is decremented. *)
Definition pass (depth d : option num) : option num :=
  let d1 := if depthFalsy d then depth else d in
  if depthNegative d1 then d1 else Some (depthDecr d1).

(** The [depth] of a String object after any number of passes. *)
Inductive passes : option num -> option num -> Prop :=
| passes_none (d : option num) : passes d d
| passes_more (depth d d' : option num) : passes (pass depth d) d' -> passes d d'.

(** Every String object of [h] is in [h'], with its string, and with a
    [depth] that passes of [adjustDepth] lead to. *)
Definition depthsOnly (h h' : list boxed) : Prop :=
  forall l b, h !! l = Some b ->
    exists b', h' !! l = Some b' /\ bstr b' = bstr b /\ passes (bdepth b) (bdepth b').


End Change.

(** ** What an operation keeps *)

Module Frame.
Import Js.

(** [w'] holds what [w] holds: the default method and the routing
    methods of the server are the same, the calls made to the server are
    those of [w] followed by more, and every name that has a path
    recorded still has one. *)
Definition extends (w w' : world) : Prop :=
  defaultMethod w' = defaultMethod w
  /\ verbs (app w') = verbs (app w)
  /\ (exists more, routes (app w') = routes (app w) ++ more)
  /\ (forall k p, controllerToPathHash w !! k = Some p ->
                  exists p', controllerToPathHash w' !! k = Some p').

(** An operation that only adds, whatever its outcome. *)
Definition growing {A : Type} (m : M A) : Prop := forall w, extends w (snd (m w)).

(** A parameter whose name the model reads as a regular expression. *)
Definition modelledParam (kv : string * string) : bool :=
  match Url.paramPattern (fst kv) with
  | Some _ => true
  | None => false
  end.

End Frame.

(** ** Loading the controllers (lines 58-95) *)

Module Loader.
Import Str Js.

(** [mergeObjs] (lines 58-70).  An argument is an object, or [None] for a
    value that is no instance of [Object].  The properties of each object
    are copied in turn into a new object; a function is an object without
    enumerable properties. *)
Definition copyInto (outObj : list (string * ctrl)) (kv : string * ctrl)
  : list (string * ctrl) :=
  setKey (fst kv) (snd kv) outObj.

Definition mergeOne (outObj : list (string * ctrl)) (arg : option ctrl)
  : list (string * ctrl) :=
  match arg with
  | Some (CObj members) => fold_left copyInto members outObj
  | Some (CFun _) => outObj
  | None => outObj
  end.

Definition mergeObjs (args : list (option ctrl)) : list (string * ctrl) :=
  fold_left mergeOne args [].

(** The controllers directory: a file, with what [require] gives for it
    when it is a module that loads and exports an object or a function;
    or a directory, with its entries in the order of [readdirSync]. *)
Inductive fsnode :=
| FFile (exports : option ctrl)
| FDir (entries : list (string * fsnode)).

Inductive loadResult :=
| Loaded (controllerObj : ctrl)
| ControllerPathInvalid
| FsError
| LoadUnsupported.

Definition isDirectory (node : fsnode) : bool :=
  match node with
  | FDir _ => true
  | FFile _ => false
  end.

(** Lines 78-80.  When the directory has an entry [controllers.js], the
    module [controllers] of the directory is required and merged over
    [controllerObj].  The model covers the case where [require] finds
    the file [controllers.js]: that entry is a module, and no entry
    [controllers], which [require] would try first, stands beside it. *)
Definition requireControllers (entries : list (string * fsnode)) (controllerObj : ctrl)
  : option ctrl :=
  match lookupKey "controllers.js" entries with
  | None => Some controllerObj
  | Some (FFile (Some exports)) =>
      match lookupKey "controllers" entries with
      | None => Some (CObj (mergeObjs [Some controllerObj; Some exports]))
      | Some _ => None
      end
  | Some _ => None
  end.

(** Lines 81-90: every entry that is a directory is loaded into the
    property of its name, which is created empty when it is not there.
    [load] is the recursive call.  A property cannot be set on a function
    in this model, and a directory named like a member of
    [Object.prototype] is outside the model. *)
Fixpoint loadChildren (load : fsnode -> ctrl -> loadResult)
    (pathChildren : list (string * fsnode)) (controllerObj : ctrl) : loadResult :=
  match pathChildren with
  | [] => Loaded controllerObj
  | (name, child) :: pathChildren' =>
      if isDirectory child then
        match controllerObj with
        | CObj members =>
            if existsb (String.eqb name) Router.objectPrototype then LoadUnsupported
            else
              match load child (default (CObj []) (lookupKey name members)) with
              | Loaded sub => loadChildren load pathChildren' (CObj (setKey name sub members))
              | failure => failure
              end
        | CFun _ => LoadUnsupported
        end
      else loadChildren load pathChildren' controllerObj
  end.

(** [loadControllers] (lines 76-95) on the node at [controllerPath]:
    [readdirSync] fails on a file. *)
Fixpoint loadNode (node : fsnode) (controllerObj : ctrl) : loadResult :=
  match node with
  | FFile _ => FsError
  | FDir entries =>
      match requireControllers entries controllerObj with
      | Some merged => loadChildren loadNode entries merged
      | None => LoadUnsupported
      end
  end.

(** A path that does not exist is an invalid controller path. *)
Definition loadControllers (controllerPath : option fsnode) (controllerObj : ctrl)
  : loadResult :=
  match controllerPath with
  | Some node => loadNode node controllerObj
  | None => ControllerPathInvalid
  end.



(** A controllers directory with a subdirectory [social], which the
    module of the directory names too, and a file that is no module. *)
Definition site : fsnode :=
  FDir [("controllers.js",
         FFile (Some (CObj [("index", CFun "index"); ("social", CObj [("old", CFun "old")])])));
        ("helper_lib.js", FFile None);
        ("social", FDir [("controllers.js", FFile (Some (CObj [("index", CFun "social.index")])));
                         ("deep", FDir [])])].

End Loader.

(** * Properties *)

Import Str Js Parser Required Router Obs.
#[local] Arguments String.append !s1 s2 : simpl nomatch.
Local Open Scope js_scope.

Create HintDb fuel.

(** Inversion of [toLowerCase m = w] for a literal word [w]: the
    characters of [m] one by one. *)
Ltac lower_inv H :=
  repeat match type of H with
         | toLowerCase ?m = _ =>
             destruct m; simpl in H; [try discriminate H|try discriminate H];
             try (let Hc := fresh "Hc" in injection H as Hc H)
         end.

Ltac use_chars :=
  repeat match goal with
         | Hc : lowerChar ?c = _ |- context [lowerChar ?c] => rewrite Hc
         end.

(** One step of the loop, after the result of the step is known. *)
Ltac loop_step IH E F :=
  unfold bind, ret, onOutput; rewrite ?IH; unfold onOutput;
  repeat match goal with
         | |- context [routeLoop ?r ?c ?p ?k ?q ?w] =>
             destruct (routeLoop r c p k q w) as [[?|?| |] ?]; cbn [fst snd]
         end;
  rewrite ?F, ?E; reflexivity.

(** The steps of a sequence of operations, none of which runs out of
    fuel; [B] is the rule for a sequence. *)
Ltac fuel_steps B :=
  repeat first
    [ apply B; [|intros ?]
    | solve [auto with fuel] ].

(** ** Strings and the parser *)

Lemma app_empty_r (s : string) : s +:+ "" = s.
Proof. induction s; simpl; congruence. Qed.

Lemma app_assoc_s (a b c : string) : (a +:+ b) +:+ c = a +:+ (b +:+ c).
Proof. induction a; simpl; congruence. Qed.

Lemma toLowerCase_app (a b : string) :
  toLowerCase (a +:+ b) = toLowerCase a +:+ toLowerCase b.
Proof. induction a; simpl; congruence. Qed.

Lemma stripPrefixCI_sound (a m x r : string) :
  stripPrefixCI a m = Some (x, r) -> m = x +:+ r /\ toLowerCase x = a.
Proof.
  revert m x r. induction a as [|c a IH]; intros m x r H.
  - destruct m; simpl in H; inversion H; subst; auto.
  - destruct m as [|d m]; simpl in H; [discriminate|].
    destruct (Ascii.eqb c (lowerChar d)) eqn:E; [|discriminate].
    destruct (stripPrefixCI a m) as [[x' r']|] eqn:E'; [|discriminate].
    inversion H; subst. apply IH in E' as [-> <-].
    apply Ascii.eqb_eq in E. subst. auto.
Qed.

Lemma stripPrefixCI_complete (m r : string) :
  stripPrefixCI (toLowerCase m) (m +:+ r) = Some (m, r).
Proof.
  induction m as [|c m IH]; simpl.
  - destruct r; reflexivity.
  - rewrite Ascii.eqb_refl, IH. reflexivity.
Qed.

Lemma app_inv_empty (x r : string) : x = x +:+ r -> r = "".
Proof.
  induction x; simpl; intros H; [auto|]. inversion H; auto.
Qed.

Lemma isMethodName_spec (alts : list string) (m : string) :
  match matchAlternation alts isEmpty m with Some _ => true | None => false end
  = existsb (String.eqb (toLowerCase m)) alts.
Proof.
  induction alts as [|a alts IH]; simpl; [reflexivity|].
  destruct (stripPrefixCI a m) as [[x r]|] eqn:E.
  - apply stripPrefixCI_sound in E as [-> <-].
    destruct r as [|c r]; simpl.
    + rewrite app_empty_r, String.eqb_refl. reflexivity.
    + rewrite IH. destruct (String.eqb _ _) eqn:E; [|reflexivity].
      apply String.eqb_eq in E. rewrite toLowerCase_app in E.
      symmetry in E. apply app_inv_empty in E. discriminate.
  - rewrite IH. destruct (String.eqb _ _) eqn:E'; [|reflexivity].
    apply String.eqb_eq in E'. subst a.
    pose proof (stripPrefixCI_complete m "") as H. rewrite app_empty_r in H. congruence.
Qed.

Lemma span_sound (p : ascii -> bool) (s run rest : string) :
  span p s = (run, rest) ->
  s = run +:+ rest /\ all p run = true /\
  match rest with String c _ => p c = false | EmptyString => True end.
Proof.
  revert run rest. induction s as [|c s IH]; simpl; intros run rest H.
  - inversion H; subst; auto.
  - destruct (p c) eqn:E.
    + destruct (span p s) as [run' rest'] eqn:E'. inversion H; subst.
      destruct (IH _ _ eq_refl) as (-> & Hall & Hrest). simpl. rewrite E. auto.
    + inversion H; subst. simpl. auto.
Qed.

Lemma span_app (p : ascii -> bool) (x r : string) :
  all p x = true ->
  match r with String c _ => p c = false | EmptyString => True end ->
  span p (x +:+ r) = (x, r).
Proof.
  induction x as [|c x IH]; simpl; intros Hall Hr.
  - destruct r as [|c r]; simpl; [reflexivity|]. rewrite Hr. reflexivity.
  - apply andb_true_iff in Hall as [Hc Hall]. rewrite Hc, IH by assumption. reflexivity.
Qed.

Lemma matchAlternation_sound (alts : list string) k (s x r : string) :
  matchAlternation alts k s = Some (x, r) ->
  s = x +:+ r /\ existsb (String.eqb (toLowerCase x)) alts = true /\ k r = true.
Proof.
  induction alts as [|a alts IH]; simpl; intros H; [discriminate|].
  destruct (stripPrefixCI a s) as [[x' r']|] eqn:E.
  - destruct (k r') eqn:Ek.
    + inversion H; subst. apply stripPrefixCI_sound in E as [-> <-].
      rewrite String.eqb_refl. auto.
    + apply IH in H as (? & -> & ?). rewrite orb_true_r. auto.
  - apply IH in H as (? & -> & ?). rewrite orb_true_r. auto.
Qed.

Lemma matchAlternation_complete (alts : list string) k (x r : string) :
  existsb (String.eqb (toLowerCase x)) alts = true -> k r = true ->
  matchAlternation alts k (x +:+ r) <> None.
Proof.
  induction alts as [|a alts IH]; simpl; intros H Hk; [discriminate|].
  destruct (stripPrefixCI a (x +:+ r)) as [[x' r']|] eqn:E.
  - destruct (k r') eqn:Ek; [discriminate|].
    apply orb_true_iff in H as [H|H]; [|auto].
    apply String.eqb_eq in H. subst a. rewrite stripPrefixCI_complete in E.
    inversion E; subst. congruence.
  - apply orb_true_iff in H as [H|H]; [|auto].
    apply String.eqb_eq in H. subst a. rewrite stripPrefixCI_complete in E. discriminate.
Qed.

Lemma isMethodChar_lower (x : string) :
  all isMethodChar x = all (charIn "adeglopstu,") (toLowerCase x).
Proof. induction x as [|c x IH]; simpl; [reflexivity|]. rewrite IH. reflexivity. Qed.

Lemma names_are_methodChars (names : list string) (x : string) :
  forallb (all (charIn "adeglopstu,")) names = true ->
  existsb (String.eqb (toLowerCase x)) names = true ->
  all isMethodChar x = true.
Proof.
  intros Hn Hx. rewrite isMethodChar_lower.
  apply existsb_exists in Hx as (a & Ha & E). apply String.eqb_eq in E. rewrite E.
  rewrite forallb_forall in Hn. apply Hn, Ha.
Qed.

Lemma contains_app (c : ascii) (x r : string) :
  contains c (x +:+ r) = contains c x || contains c r.
Proof. induction x as [|d x IH]; simpl; [reflexivity|]. rewrite IH, orb_assoc. reflexivity. Qed.

Lemma isMethodChar_notSlash (x : string) :
  all isMethodChar x = true -> all Spec.notSlash x = true.
Proof.
  induction x as [|c x IH]; simpl; [reflexivity|].
  intros H. apply andb_true_iff in H as [Hc H]. rewrite IH by assumption.
  rewrite andb_true_r. unfold Spec.notSlash.
  destruct (Ascii.eqb c "/") eqn:E; [|reflexivity].
  apply Ascii.eqb_eq in E. subst c. discriminate.
Qed.

(** A key does not split into a non-empty run of method characters and a
    remainder that starts with a slash, when its leading segment is not
    such a run. *)
Lemma no_method_run (key x r : string) :
  noMethodPrefix key ->
  key = x +:+ r -> all isMethodChar x = true -> startsWith "/" r = true ->
  x = "".
Proof.
  intros H -> Hx Hr. unfold noMethodPrefix in H.
  assert (Hseg : Spec.leadingSegment (x +:+ r) = x).
  { unfold Spec.leadingSegment. rewrite span_app; [reflexivity| |].
    - apply isMethodChar_notSlash, Hx.
    - destruct r as [|c r]; [exact I|]. simpl in Hr. unfold Spec.notSlash. rewrite Hr. reflexivity. }
  rewrite Hseg in H. destruct H as [H|[H|H]]; [|assumption|congruence].
  rewrite contains_app in H. apply orb_false_iff in H as [_ H].
  destruct r as [|c r]; [discriminate|]. simpl in H, Hr. rewrite Hr in H. discriminate.
Qed.

Lemma parseRouteKey_default (defaultMethod key : string) :
  noMethodPrefix key ->
  parseRouteKey defaultMethod key = (Single defaultMethod, key).
Proof.
  intros H. unfold parseRouteKey.
  destruct (matchAlternation methodNames (startsWith "/") key) as [[x r]|] eqn:E.
  - apply matchAlternation_sound in E as (Hkey & Hx & Hr).
    assert (x = "") as ->.
    { eapply no_method_run; eauto. eapply names_are_methodChars; [|exact Hx]. reflexivity. }
    discriminate.
  - destruct (span isMethodChar key) as [run rest] eqn:Es.
    apply span_sound in Es as (Hkey & Hrun & _).
    destruct (negb (isEmpty run) && startsWith "/" rest) eqn:Ec; [|reflexivity].
    apply andb_true_iff in Ec as [Hne Hr].
    assert (run = "") as -> by (eapply no_method_run; eauto).
    discriminate.
Qed.

Lemma lowerChar_comma (c : ascii) : Ascii.eqb (lowerChar c) "," = Ascii.eqb c ",".
Proof. destruct c as [[] [] [] [] [] [] [] []]; reflexivity. Qed.

Lemma contains_comma_lower (s : string) :
  contains "," (toLowerCase s) = contains "," s.
Proof. induction s as [|c s IH]; simpl; [reflexivity|]. rewrite lowerChar_comma, IH. reflexivity. Qed.

Lemma all_app (p : ascii -> bool) (a b : string) :
  all p (a +:+ b) = all p a && all p b.
Proof. induction a as [|c a IH]; simpl; [reflexivity|]. rewrite IH, andb_assoc. reflexivity. Qed.

Lemma all_join (p : ascii -> bool) (ms : list string) :
  p ","%char = true -> forallb (all p) ms = true -> all p (join "," ms) = true.
Proof.
  intros Hc. induction ms as [|m ms IH]; simpl; [reflexivity|].
  intros H. apply andb_true_iff in H as [Hm Hms].
  destruct ms as [|m' ms]; [assumption|].
  rewrite all_app, Hm. simpl. rewrite Hc. simpl. apply IH, Hms.
Qed.

Lemma toLowerCase_join (ms : list string) :
  toLowerCase (join "," ms) = join "," (map toLowerCase ms).
Proof.
  induction ms as [|m ms IH]; simpl; [reflexivity|].
  destruct ms as [|m' ms]; [reflexivity|].
  rewrite toLowerCase_app. simpl. simpl in IH. rewrite IH. reflexivity.
Qed.

Lemma split_nonempty (sep : ascii) (s : string) : split sep s <> [].
Proof. destruct s as [|c s]; simpl; [discriminate|]. destruct (Ascii.eqb c sep); [discriminate|]. destruct (split sep s); discriminate. Qed.

Lemma split_app_sep (m rest : string) :
  contains "," m = false ->
  split "," (m +:+ String "," rest) = m :: split "," rest.
Proof.
  induction m as [|c m IH]; simpl; intros H; [reflexivity|].
  apply orb_false_iff in H as [Hc H]. rewrite Hc, IH by assumption. reflexivity.
Qed.

Lemma split_single (m : string) : contains "," m = false -> split "," m = [m].
Proof.
  induction m as [|c m IH]; simpl; intros H; [reflexivity|].
  apply orb_false_iff in H as [Hc H]. rewrite Hc, IH by assumption. reflexivity.
Qed.

Lemma split_join (ms : list string) :
  ms <> [] -> forallb (fun m => negb (contains "," m)) ms = true ->
  split "," (join "," ms) = ms.
Proof.
  induction ms as [|m ms IH]; [congruence|]. intros _ H. simpl in H.
  apply andb_true_iff in H as [Hm Hms]. apply negb_true_iff in Hm.
  destruct ms as [|m' ms].
  - simpl. apply split_single, Hm.
  - change (join "," (m :: m' :: ms)) with (m +:+ String "," (join "," (m' :: ms))).
    rewrite split_app_sep by assumption. rewrite IH; [reflexivity|discriminate|assumption].
Qed.

Lemma accepted_chars (m : string) : accepted m = true -> all isMethodChar m = true.
Proof. apply names_are_methodChars. reflexivity. Qed.

Lemma accepted_no_comma (m : string) : accepted m = true -> contains "," m = false.
Proof.
  unfold accepted. intros H. rewrite <- contains_comma_lower.
  apply existsb_exists in H as (a & Ha & E). apply String.eqb_eq in E. rewrite E.
  simpl in Ha. repeat destruct Ha as [<-|Ha]; try reflexivity. destruct Ha.
Qed.

Lemma accepted_nonempty (m : string) : accepted m = true -> m <> "".
Proof. intros H ->. discriminate. Qed.

Lemma single_strip (d m rest : string) :
  existsb (String.eqb (toLowerCase m)) ["get"; "post"; "del"; "all"] = true ->
  parseRouteKey d (m +:+ String "/" rest) = (Single (toLowerCase m), String "/" rest).
Proof.
  intros H. simpl in H.
  repeat (apply orb_true_iff in H as [H|H]); try discriminate;
    apply String.eqb_eq in H; lower_inv H;
    unfold parseRouteKey; repeat (progress (simpl; use_chars)); reflexivity.
Qed.

Lemma join_two_comma (m m' : string) (ms : list string) :
  contains "," (join "," (m :: m' :: ms)) = true.
Proof.
  change (join "," (m :: m' :: ms)) with (m +:+ String "," (join "," (m' :: ms))).
  rewrite contains_app. simpl. apply orb_true_r.
Qed.

Lemma methodName_no_comma (x : string) :
  existsb (String.eqb (toLowerCase x)) methodNames = true -> contains "," x = false.
Proof.
  intros H. apply accepted_no_comma. unfold accepted. simpl in *.
  repeat (apply orb_true_iff in H as [H|H]); try discriminate; rewrite H; 
    rewrite ?orb_true_r; reflexivity.
Qed.

Lemma join_nonempty (ms : list string) :
  ms <> [] -> forallb accepted ms = true -> join "," ms <> "".
Proof.
  destruct ms as [|m ms]; [congruence|]. intros _ H. simpl in H.
  apply andb_true_iff in H as [Hm _]. apply accepted_nonempty in Hm.
  destruct ms; simpl; destruct m; simpl; congruence.
Qed.

Lemma parseRouteKey_methods (d : string) (ms : list string) (rest : string) :
  ms <> [] ->
  forallb accepted ms = true ->
  (forall m, ms = [m] -> toLowerCase m <> "put") ->
  parseRouteKey d (join "," ms +:+ String "/" rest)
  = (match ms with
     | [m] => if existsb (String.eqb (toLowerCase m)) methodNames
              then Single (toLowerCase m) else Multiple [toLowerCase m]
     | _ => Multiple (map toLowerCase ms)
     end, String "/" rest).
Proof.
  intros Hne Hacc Hput.
  assert (Hchars : all isMethodChar (join "," ms) = true).
  { apply all_join; [reflexivity|]. rewrite forallb_forall in *. intros m Hm.
    apply accepted_chars, Hacc, Hm. }
  assert (Hspan : span isMethodChar (join "," ms +:+ String "/" rest)
                  = (join "," ms, String "/" rest)) by (apply span_app; auto).
  assert (Hsplit : split "," (toLowerCase (join "," ms)) = map toLowerCase ms).
  { rewrite toLowerCase_join. apply split_join.
    - destruct ms; [congruence|discriminate].
    - rewrite forallb_forall. intros m Hm. apply list_elem_of_In in Hm.
      apply list_elem_of_fmap in Hm as (m0 & -> & Hm0). apply list_elem_of_In in Hm0.
      rewrite forallb_forall in Hacc. rewrite contains_comma_lower.
      rewrite (accepted_no_comma _ (Hacc _ Hm0)). reflexivity. }
  destruct (existsb (String.eqb (toLowerCase (join "," ms))) methodNames) eqn:Eject.
  - (* the whole list is one of get, post, put, del, all *)
    destruct ms as [|m [|m' ms]]; [congruence| |].
    + simpl in Eject |- *. rewrite Eject.
      apply single_strip. simpl in Eject |- *.
      specialize (Hput m eq_refl).
      destruct (String.eqb (toLowerCase m) "put") eqn:Ep;
        [apply String.eqb_eq in Ep; congruence|].
      rewrite orb_false_l in Eject. 
      destruct (String.eqb (toLowerCase m) "get"); [reflexivity|].
      destruct (String.eqb (toLowerCase m) "post"); [reflexivity|].
      simpl in *. exact Eject.
    + apply methodName_no_comma in Eject. rewrite join_two_comma in Eject. discriminate.
  - unfold parseRouteKey.
    destruct (matchAlternation methodNames (startsWith "/") _) as [[x r]|] eqn:E.
    + exfalso. apply matchAlternation_sound in E as (Hkey & Hx & Hr).
      assert (Hxc : all isMethodChar x = true)
        by (eapply names_are_methodChars; [|exact Hx]; reflexivity).
      assert (Hs : span isMethodChar (x +:+ r) = (x, r)).
      { apply span_app; [assumption|]. destruct r as [|c r]; [exact I|].
        simpl in Hr. apply Ascii.eqb_eq in Hr. subst c. reflexivity. }
      rewrite <- Hkey, Hspan in Hs. inversion Hs; subst. congruence.
    + rewrite Hspan, Hsplit.
      destruct (isEmpty (join "," ms)) eqn:Ee.
      * destruct (join "," ms) eqn:Ej; [|discriminate].
        exfalso. eapply join_nonempty; eauto.
      * simpl. destruct ms as [|m [|m' ms]]; [congruence| |reflexivity].
        simpl in Eject. simpl. rewrite Eject. reflexivity.
Qed.

(** A leading run of characters of the class, followed by a slash, is
    the method list, unless it is one of the five names alone. *)
Lemma parseRouteKey_class_run (d run rest : string) :
  all isMethodChar run = true -> isEmpty run = false ->
  existsb (String.eqb (toLowerCase run)) methodNames = false ->
  parseRouteKey d (run +:+ String "/" rest)
  = (Multiple (split "," (toLowerCase run)), String "/" rest).
Proof.
  intros Hrun Hne Hnot.
  assert (Hspan : span isMethodChar (run +:+ String "/" rest) = (run, String "/" rest))
    by (apply span_app; auto).
  unfold parseRouteKey.
  destruct (matchAlternation methodNames (startsWith "/") _) as [[x r]|] eqn:E.
  - exfalso. apply matchAlternation_sound in E as (Hkey & Hx & Hr).
    assert (Hxc : all isMethodChar x = true)
      by (eapply names_are_methodChars; [|exact Hx]; reflexivity).
    assert (Hs : span isMethodChar (x +:+ r) = (x, r)).
    { apply span_app; [assumption|]. destruct r as [|c r]; [exact I|].
      cbn in Hr. apply Ascii.eqb_eq in Hr. subst c. reflexivity. }
    rewrite <- Hkey, Hspan in Hs. inversion Hs; subst. congruence.
  - rewrite Hspan, Hne. reflexivity.
Qed.

Lemma expand_literal (value matched before after : string) :
  contains "$" value = false -> Replace.expand value matched before after = value.
Proof.
  induction value as [|c value IH]; simpl; intros H; [reflexivity|].
  apply orb_false_iff in H as [Hc H]. rewrite Hc, IH by assumption. reflexivity.
Qed.

Lemma scan_ext (m1 m2 : string -> option (string * string))
    (f1 f2 : string -> string -> string -> string) (s : string) :
  (forall t, m1 t = m2 t) -> (forall x b a, f1 x b a = f2 x b a) ->
  forall before skip, Replace.scan m1 f1 before skip s = Replace.scan m2 f2 before skip s.
Proof.
  intros Hm Hf. induction s as [|c s IH]; intros before skip; simpl; [reflexivity|].
  destruct skip; [|apply IH]. rewrite Hm.
  destruct (m2 (String c s)) as [[x a]|]; rewrite IH, ?Hf; reflexivity.
Qed.

Lemma paramPattern_literal (param : string) :
  Spec.literalName param = true -> Url.paramPattern param = Some (literalToks param).
Proof.
  induction param as [|c param IH]; simpl; intros H; [reflexivity|].
  apply andb_true_iff in H as [Hc H]. apply negb_true_iff, orb_false_iff in Hc as [Hs Hd].
  rewrite Hs, IH, Hd by assumption. reflexivity.
Qed.

Lemma matchToks_literal (param s : string) :
  Url.matchToks (literalToks param) s
  = match stripPrefix param s with
    | Some rest =>
        let '(marks, rest') := span Url.isQuestion rest in Some (param +:+ marks, rest')
    | None => None
    end.
Proof.
  revert s. induction param as [|c param IH]; intros s; simpl.
  - destruct (span Url.isQuestion s); reflexivity.
  - destruct s as [|d s]; [reflexivity|]. simpl.
    destruct (Ascii.eqb c d) eqn:E; [|reflexivity]. rewrite IH.
    apply Ascii.eqb_eq in E. subst d.
    destruct (stripPrefix param s); [|reflexivity].
    destruct (span Url.isQuestion s0). reflexivity.
Qed.

Lemma matchParam_literal (param s : string) :
  Url.matchParam (literalToks param) s = Spec.matchLiteral param s.
Proof.
  unfold Url.matchParam, Spec.matchLiteral. destruct s as [|d s]; [reflexivity|].
  cbn [stripPrefix]. rewrite (Ascii.eqb_sym ":" d).
  destruct (Ascii.eqb d ":") eqn:E; [|reflexivity].
  rewrite matchToks_literal. apply Ascii.eqb_eq in E. subst d.
  destruct (stripPrefix param s); [|reflexivity].
  destruct (span Url.isQuestion s0). reflexivity.
Qed.

Lemma substitute_literal (param value thePath : string) :
  Spec.literalName param = true -> contains "$" value = false ->
  Url.substitute param value thePath = Some (Spec.replaceLiteral param value thePath).
Proof.
  intros Hp Hv. unfold Url.substitute, Spec.replaceLiteral, Replace.replaceAll.
  rewrite paramPattern_literal by assumption. f_equal.
  apply scan_ext; [apply matchParam_literal|]. intros. apply expand_literal, Hv.
Qed.

Lemma all_nameChar_span (run rest : string) (q : ascii) :
  all Spec.isNameChar run = true -> Ascii.eqb q "?" = true ->
  span Spec.isNameChar (run +:+ String q rest) = (run, String q rest).
Proof.
  intros H Hq. apply span_app; [assumption|].
  apply Ascii.eqb_eq in Hq. subst q. reflexivity.
Qed.

Lemma matchOptional_clean (s : string) :
  Spec.cleanAt s = true -> Url.matchOptional s = Spec.matchPlaceholder s.
Proof.
  unfold Spec.cleanAt, Url.matchOptional, Spec.matchPlaceholder.
  destruct s as [|c s]; [reflexivity|]. destruct (Ascii.eqb c ":"); [|reflexivity].
  destruct (span (fun x => negb (Url.isQuestion x)) s) as [run rest] eqn:E.
  apply span_sound in E as (-> & Hrun & Hrest). intros H.
  destruct rest as [|q rest].
  - (* no question mark follows *)
    rewrite app_empty_r.
    destruct (span Spec.isNameChar run) as [name rest'] eqn:E'.
    apply span_sound in E' as (Hr & Hname & Hrest').
    destruct rest' as [|q rest']; [reflexivity|].
    destruct (Ascii.eqb q "?") eqn:Eq; [|reflexivity]. exfalso.
    rewrite Hr, all_app in Hrun. apply andb_true_iff in Hrun as [_ Hrun].
    simpl in Hrun. unfold Url.isQuestion in Hrun. rewrite Eq in Hrun. discriminate.
  - simpl in H. apply negb_false_iff in Hrest. unfold Url.isQuestion in Hrest.
    rewrite all_nameChar_span by assumption. rewrite Hrest. reflexivity.
Qed.

Lemma scan_clean (f : string -> string -> string -> string) (s : string) :
  Spec.cleanPlaceholders s = true ->
  forall before skip,
    Replace.scan Url.matchOptional f before skip s
    = Replace.scan Spec.matchPlaceholder f before skip s.
Proof.
  induction s as [|c s IH]; intros H before skip; [reflexivity|].
  cbn [Spec.cleanPlaceholders] in H. apply andb_true_iff in H as [Hc H].
  cbn [Replace.scan]. destruct skip; [|apply IH, H].
  rewrite matchOptional_clean by assumption.
  destruct (Spec.matchPlaceholder (String c s)) as [[x a]|]; rewrite IH by assumption; reflexivity.
Qed.

Lemma expand_empty (matched before after : string) :
  Replace.expand "" matched before after = "".
Proof. reflexivity. Qed.

Lemma stripOptional_clean (thePath : string) :
  Spec.cleanPlaceholders thePath = true ->
  Url.stripOptional thePath = Spec.stripPlaceholders thePath.
Proof.
  intros H. unfold Url.stripOptional, Spec.stripPlaceholders, Replace.replaceAll.
  rewrite <- scan_clean by assumption. apply scan_ext; reflexivity.
Qed.

Lemma substituteAll_literal (params : list (string * string)) (thePath : string) :
  forallb literalParam params = true ->
  Router.substituteAll params thePath = Some (Spec.substituteAll params thePath).
Proof.
  revert thePath. induction params as [|[param value] params IH]; intros thePath H; [reflexivity|].
  simpl in H. apply andb_true_iff in H as [Hkv H]. apply andb_true_iff in Hkv as [Hk Hv].
  apply negb_true_iff in Hv. simpl. rewrite substitute_literal by assumption. apply IH, H.
Qed.

Lemma bind_onOutput {A B C : Type} (m : M A) (f : A -> B) (g : B -> C) (w : world) :
  onOutput g (bind m (fun a => ret (f a)) w) = onOutput (fun a => g (f a)) (m w).
Proof. unfold bind, onOutput, ret. destruct (m w) as [[a|e| |] w']; reflexivity. Qed.

Lemma filter_notRequired_cons (route : string) (v : jsval) (l : list (string * jsval)) :
  List.filter notRequired ((route, v) :: l)
  = if String.eqb route "required" then List.filter notRequired l
    else (route, v) :: List.filter notRequired l.
Proof. cbn. unfold notRequired at 1. cbn. destruct (String.eqb route "required"); reflexivity. Qed.

Lemma returns_bind {A B : Type} (m : M A) (k : A -> M B) (P : A -> Prop) (Q : B -> Prop) :
  returns m P -> (forall a, P a -> returns (k a) Q) -> returns (bind m k) Q.
Proof.
  intros Hm Hk w b w' H. unfold bind in H.
  destruct (m w) as [[a|e| |] w1] eqn:E; try discriminate.
  eapply Hk; [eapply Hm; exact E|exact H].
Qed.

Lemma returns_ret {A : Type} (a : A) (P : A -> Prop) : P a -> returns (ret a) P.
Proof. intros H w b w' E. inversion E; subst. exact H. Qed.

Lemma returns_any {A : Type} (m : M A) : returns m (fun _ => True).
Proof. intros w a w' _. exact I. Qed.

Lemma returns_modelled {A : Type} (o : option A) : returns (modelled o) (fun a => o = Some a).
Proof. intros w a w' E. destruct o; inversion E; subst. reflexivity. Qed.

Lemma lookupKey_markChildren (f : jsval -> jsval) (kvs : list (string * jsval)) :
  lookupKey "required" (Spec.markChildren f kvs) = lookupKey "required" kvs.
Proof.
  induction kvs as [|[k v] kvs IH]; [reflexivity|]. cbn.
  destruct (String.eqb k "required"); [reflexivity|exact IH].
Qed.

Lemma markChildren_setKey (f : jsval -> jsval) (r : jsval) (kvs : list (string * jsval)) :
  Spec.markChildren f (setKey "required" r kvs) = setKey "required" r (Spec.markChildren f kvs).
Proof.
  induction kvs as [|[k v] kvs IH]; [reflexivity|]. cbn.
  destruct (String.eqb k "required") eqn:E; cbn; rewrite ?E; [reflexivity|].
  f_equal. exact IH.
Qed.

Lemma lookupKey_setKey {A : Type} (k : string) (v : A) (kvs : list (string * A)) :
  lookupKey k (setKey k v kvs) = Some v.
Proof.
  induction kvs as [|[k' v'] kvs IH]; cbn; [rewrite String.eqb_refl; reflexivity|].
  destruct (String.eqb k' k) eqn:E; cbn; rewrite E; [reflexivity|exact IH].
Qed.

Lemma routeLoop_marks recurse controllers currPath kvs req :
  (forall v p q, returns (recurse v p q) (fun out => fst out = Spec.markRequired v)) ->
  returns (routeLoop recurse controllers currPath kvs req)
    (fun out => fst out = Spec.markChildren Spec.markRequired kvs).
Proof.
  intros Hrec. revert req. induction kvs as [|[route v] kvs IH]; intros req.
  - apply returns_ret. reflexivity.
  - cbn [routeLoop]. destruct (String.eqb route "required") eqn:E.
    + eapply returns_bind; [apply IH|]. intros out Hout. apply returns_ret.
      cbn. rewrite E, Hout. reflexivity.
    + destruct v; try (intros w a w' H; discriminate H).
      * eapply returns_bind; [apply returns_any|]. intros _ _.
        eapply returns_bind; [apply IH|]. intros out Hout. apply returns_ret.
        cbn. rewrite E, Hout. reflexivity.
      * eapply returns_bind; [apply returns_any|]. intros _ _.
        eapply returns_bind; [apply IH|]. intros out Hout. apply returns_ret.
        cbn. rewrite E, Hout. reflexivity.
      * eapply returns_bind; [apply Hrec|]. intros sub Hsub.
        eapply returns_bind; [apply IH|]. intros out Hout. apply returns_ret.
        cbn [fst snd Spec.markChildren map]. rewrite E, Hout, Hsub. reflexivity.
Qed.

Lemma buildRoutes_marks fuel controllers routeObj currPath required :
  returns (buildRoutes fuel controllers routeObj currPath required)
    (fun out => fst out = Spec.markRequired routeObj).
Proof.
  revert routeObj currPath required.
  induction fuel as [|fuel IH]; intros routeObj currPath required.
  - intros w a w' H. discriminate H.
  - cbn [buildRoutes]. destruct routeObj; try (intros w a w' H; discriminate H).
    eapply returns_bind; [apply returns_modelled|]. intros r Hr.
    eapply returns_bind; [apply returns_any|]. intros dpre _.
    eapply returns_bind; [apply returns_any|]. intros dpost _.
    eapply returns_bind; [apply returns_any|]. intros w0 _.
    eapply returns_bind; [apply returns_any|]. intros post _.
    eapply returns_bind; [apply returns_any|]. intros pre' _.
    eapply returns_bind; [apply returns_any|]. intros post' _.
    eapply returns_bind; [apply routeLoop_marks; intros; apply IH|].
    intros out Hout. apply returns_ret. cbn [fst Spec.markRequired]. rewrite Hout.
    f_equal. unfold Spec.markGroup.
    assert (Hreq : forall l, getProp (JObj (Spec.markChildren Spec.markRequired l)) "required"
                             = getProp (JObj l) "required").
    { intros l. cbn. rewrite lookupKey_markChildren. reflexivity. }
    rewrite Hreq. rewrite markChildren_setKey.
    destruct (truthy (getProp (JObj kvs) "required")).
    + rewrite Hreq. rewrite Hr. reflexivity.
    + rewrite markChildren_setKey. cbn in Hr |- *.
      rewrite lookupKey_setKey in Hr |- *. cbn in Hr |- *. inversion Hr; subst. reflexivity.
Qed.

Lemma fuelled_bind {A B : Type} (m : M A) (k : A -> M B) :
  fuelled m -> (forall a, fuelled (k a)) -> fuelled (bind m k).
Proof.
  intros Hm Hk w. unfold bind. specialize (Hm w).
  destruct (m w) as [[a|e| |] w1]; cbn [fst] in *; [apply Hk|discriminate|discriminate|congruence].
Qed.

Lemma fuelled_ret {A : Type} (a : A) : fuelled (ret a).
Proof. intros w. discriminate. Qed.

Lemma fuelled_throw {A : Type} (e : error) : fuelled (@throw A e).
Proof. intros w. discriminate. Qed.

Lemma fuelled_unsupported {A : Type} : fuelled (@unsupported A).
Proof. intros w. discriminate. Qed.

Lemma fuelled_modelled {A : Type} (o : option A) : fuelled (modelled o).
Proof. destruct o; [apply fuelled_ret|apply fuelled_unsupported]. Qed.

Lemma fuelled_getWorld : fuelled getWorld.
Proof. intros w. discriminate. Qed.

Lemma fuelled_putWorld (w0 : world) : fuelled (putWorld w0).
Proof. intros w. discriminate. Qed.

#[local] Hint Resolve fuelled_ret fuelled_throw fuelled_unsupported fuelled_modelled
  fuelled_getWorld fuelled_putWorld : fuel.

Lemma fuelled_getController controllers name : fuelled (getController controllers name).
Proof. unfold getController. destruct (walk _ _); auto with fuel. Qed.

Lemma fuelled_resolveAll controllers routeUrl expressCall :
  fuelled (resolveAll controllers routeUrl expressCall).
Proof.
  induction expressCall as [|e es IH]; cbn [resolveAll]; [auto with fuel|].
  fuel_steps @fuelled_bind; auto using fuelled_getController.
Qed.

Lemma fuelled_expressApply method routeUrl chain : fuelled (expressApply method routeUrl chain).
Proof. unfold expressApply. fuel_steps @fuelled_bind. destruct (existsb _ _); auto with fuel. Qed.

Lemma fuelled_expressApplyEach methods routeUrl chain :
  fuelled (expressApplyEach methods routeUrl chain).
Proof.
  induction methods as [|m ms IH]; cbn [expressApplyEach]; [auto with fuel|].
  apply fuelled_bind; [apply fuelled_expressApply|intros _; exact IH].
Qed.

Lemma fuelled_buildLeaf controllers currPath route v req :
  fuelled (buildLeaf controllers currPath route v req).
Proof.
  unfold buildLeaf. apply fuelled_bind; [auto with fuel|]. intros w.
  destruct (parseRouteKey (defaultMethod w) route) as [theMethod routeUrl0].
  apply fuelled_bind; [auto with fuel|]. intros own.
  apply fuelled_bind; [apply fuelled_resolveAll|]. intros chain.
  destruct theMethod; [apply fuelled_expressApply|apply fuelled_expressApplyEach].
Qed.

Lemma fuelled_adjustPrefix depth objArray : fuelled (adjustPrefix depth objArray).
Proof.
  unfold adjustPrefix. apply fuelled_bind; [auto with fuel|]. intros w.
  destruct (adjustDepth depth objArray (heap w)) as [[a h]|]; fuel_steps @fuelled_bind.
Qed.

Lemma fuelled_adjustPostfix depth p : fuelled (adjustPostfix depth p).
Proof.
  destruct p; cbn [adjustPostfix]; [|auto with fuel].
  apply fuelled_bind; [apply fuelled_adjustPrefix|auto with fuel].
Qed.

Lemma fuelled_routeLoop recurse controllers currPath kvs req :
  (forall k kvs0, In (k, JObj kvs0) kvs -> String.eqb k "required" = false ->
     forall p q, fuelled (recurse (JObj kvs0) p q)) ->
  fuelled (routeLoop recurse controllers currPath kvs req).
Proof.
  revert req. induction kvs as [|[route v] kvs IH]; intros req Hrec; [apply fuelled_ret|].
  cbn [routeLoop].
  assert (Hrest : forall q, fuelled (routeLoop recurse controllers currPath kvs q)).
  { intros q. apply IH. intros k kvs0 Hin. apply Hrec. right. exact Hin. }
  destruct (String.eqb route "required") eqn:E.
  - apply fuelled_bind; [apply Hrest|auto with fuel].
  - destruct v; auto with fuel.
    + apply fuelled_bind; [apply fuelled_buildLeaf|intros _].
      apply fuelled_bind; [apply Hrest|auto with fuel].
    + apply fuelled_bind; [apply fuelled_buildLeaf|intros _].
      apply fuelled_bind; [apply Hrest|auto with fuel].
    + apply fuelled_bind; [apply (Hrec route kvs0); [left; reflexivity|exact E]|intros sub].
      apply fuelled_bind; [apply Hrest|auto with fuel].
Qed.

Lemma height_child (k : string) (v : jsval) (kvs : list (string * jsval)) :
  In (k, v) kvs -> height v < height (JObj kvs).
Proof.
  cbn [height]. induction kvs as [|kv kvs IH]; intros Hin; [destruct Hin|].
  destruct Hin as [->|Hin]; cbn [snd]; [lia|]. specialize (IH Hin). lia.
Qed.

Lemma in_setKey_other {A : Type} (k k0 : string) (v v0 : A) (kvs : list (string * A)) :
  In (k, v) (setKey k0 v0 kvs) -> String.eqb k k0 = false -> In (k, v) kvs.
Proof.
  induction kvs as [|[k' v'] kvs IH]; cbn; intros Hin Hk.
  - destruct Hin as [Hin|[]]. inversion Hin; subst. rewrite String.eqb_refl in Hk. discriminate.
  - destruct (String.eqb k' k0) eqn:E; cbn in Hin.
    + destruct Hin as [Hin|Hin]; [|right; exact Hin].
      inversion Hin; subst. congruence.
    + destruct Hin as [Hin|Hin]; [left; exact Hin|right; apply IH; assumption].
Qed.

Lemma fuelled_buildRoutes fuel controllers routeObj currPath required :
  height routeObj < fuel ->
  fuelled (buildRoutes fuel controllers routeObj currPath required).
Proof.
  revert routeObj currPath required.
  induction fuel as [|fuel IH]; intros routeObj currPath required H; [lia|].
  cbn [buildRoutes]. destruct routeObj; auto with fuel.
  apply fuelled_bind; [auto with fuel|]. intros r.
  apply fuelled_bind; [auto with fuel|]. intros dpre.
  apply fuelled_bind; [auto with fuel|]. intros dpost.
  apply fuelled_bind; [auto with fuel|]. intros w0.
  apply fuelled_bind; [auto with fuel|]. intros post.
  apply fuelled_bind; [apply fuelled_adjustPrefix|]. intros pre'.
  apply fuelled_bind; [apply fuelled_adjustPostfix|]. intros post'.
  apply fuelled_bind; [|auto with fuel].
  apply fuelled_routeLoop. intros k kvs0 Hin Hk p q. apply IH.
  apply in_setKey_other in Hin; [|exact Hk].
  assert (Hin' : In (k, JObj kvs0) kvs).
  { destruct (truthy (getProp (JObj kvs) "required")); [exact Hin|].
    apply in_setKey_other in Hin; [exact Hin|exact Hk]. }
  apply height_child in Hin'. lia.
Qed.

Lemma registerRoutes_fuelled tree controllers : fuelled (registerRoutes tree controllers).
Proof.
  unfold registerRoutes. apply fuelled_bind; [|auto with fuel].
  apply fuelled_buildRoutes. lia.
Qed.

Lemma bind_inv {A B : Type} (m : M A) (k : A -> M B) (w w' : world) (b : B) :
  bind m k w = (Ok b, w') -> exists a w1, m w = (Ok a, w1) /\ k a w1 = (Ok b, w').
Proof.
  unfold bind. destruct (m w) as [[a|e| |] w1]; try discriminate. eauto.
Qed.

Lemma getController_frame controllers name w r w' :
  getController controllers name w = (r, w') -> w' = w.
Proof. unfold getController. destruct (walk _ _); intros H; inversion H; reflexivity. Qed.

Lemma resolveAll_frame controllers routeUrl expressCall w r w' :
  resolveAll controllers routeUrl expressCall w = (r, w') ->
  app w' = app w /\ defaultMethod w' = defaultMethod w /\ heap w' = heap w.
Proof.
  revert w r w'. induction expressCall as [|e es IH]; intros w r w' H.
  - inversion H; subst. auto.
  - cbn [resolveAll] in H. unfold bind, getWorld, putWorld, modelled in H.
    destruct (entryName (heap w) e) as [name|]; cbn in H; [|inversion H; subst; auto].
    destruct (getController controllers name _) as [[c|err| |] w1] eqn:Ec;
      apply getController_frame in Ec; subst w1;
      try (inversion H; subst; cbn; auto; fail).
    destruct (resolveAll controllers routeUrl es _) as [[cs|err| |] w2] eqn:Er;
      apply IH in Er as (Ha & Hd & Hh); inversion H; subst; cbn in *; auto.
Qed.

Lemma buildLeaf_default controllers currPath route v req w w' :
  noMethodPrefix route ->
  buildLeaf controllers currPath route v req w = (Ok tt, w') ->
  exists chain,
    routes (app w') = routes (app w)
                      ++ [Binding (defaultMethod w) (leafUrl currPath route) chain].
Proof.
  intros Hkey H. unfold buildLeaf in H.
  apply bind_inv in H as (w0 & w1 & Hw & H). inversion Hw; subst w0 w1. clear Hw.
  rewrite (parseRouteKey_default _ _ Hkey) in H.
  apply bind_inv in H as (own & w1 & Hown & H).
  assert (w1 = w) as -> by (destruct (ownEntries v); inversion Hown; reflexivity).
  apply bind_inv in H as (chain & w2 & Hres & H).
  apply resolveAll_frame in Hres as (Ha & Hd & _).
  exists chain. unfold expressApply, bind, getWorld, putWorld in H.
  destruct (existsb _ _); inversion H; subst. cbn. rewrite Ha. reflexivity.
Qed.

(** ** The chain of a leaf *)

Lemma getController_ok controllers name w c w' :
  getController controllers name w = (Ok c, w') -> resolves controllers name c /\ w' = w.
Proof.
  unfold getController, resolves. destruct (walk _ _); intros H; inversion H; subst. auto.
Qed.

Lemma resolveAll_names controllers routeUrl expressCall w chain w' :
  resolveAll controllers routeUrl expressCall w = (Ok chain, w') ->
  exists names,
    entryNames (heap w) expressCall = Some names
    /\ Forall2 (resolves controllers) names chain.
Proof.
  revert w chain w'. induction expressCall as [|e es IH]; intros w chain w' H.
  - inversion H; subst. exists []. split; [reflexivity|constructor].
  - cbn [resolveAll] in H.
    apply bind_inv in H as (w0 & w1 & Hw & H). inversion Hw; subst w0 w1; clear Hw.
    apply bind_inv in H as (name & w1 & Hn & H).
    destruct (entryName (heap w) e) as [name'|] eqn:En; [|discriminate Hn].
    inversion Hn; subst name' w1; clear Hn.
    apply bind_inv in H as ([] & w1 & Hp & H). inversion Hp; subst w1; clear Hp.
    apply bind_inv in H as (c & w1 & Hc & H).
    apply getController_ok in Hc as [Hc ->].
    apply bind_inv in H as (cs & w2 & Hcs & H). inversion H; subst chain w2; clear H.
    apply IH in Hcs as (names & Hnames & Hall). cbn [heap setHash] in Hnames.
    exists (name :: names). cbn [entryNames]. rewrite En, Hnames.
    split; [reflexivity|constructor; assumption].
Qed.

Lemma expressApply_routes method routeUrl chain w w' :
  expressApply method routeUrl chain w = (Ok tt, w') ->
  routes (app w') = routes (app w) ++ [Binding method routeUrl chain].
Proof.
  unfold expressApply, bind, getWorld, putWorld.
  destruct (existsb _ _); intros H; inversion H; subst. reflexivity.
Qed.

Lemma expressApplyEach_routes methods routeUrl chain w w' :
  expressApplyEach methods routeUrl chain w = (Ok tt, w') ->
  routes (app w') = routes (app w) ++ map (fun m => Binding m routeUrl chain) methods.
Proof.
  revert w. induction methods as [|m ms IH]; intros w H.
  - inversion H; subst. rewrite app_nil_r. reflexivity.
  - cbn [expressApplyEach] in H. apply bind_inv in H as ([] & w1 & H1 & H).
    apply expressApply_routes in H1. apply IH in H. rewrite H, H1.
    rewrite <- app_assoc. reflexivity.
Qed.

(** A leaf that registers is bound, once for each of its methods, to the
    controllers that the names of the prefix, of the leaf and of the
    postfix resolve to, in this order. *)
Lemma buildLeaf_registers controllers currPath route v req w w' :
  buildLeaf controllers currPath route v req w = (Ok tt, w') ->
  exists own names chain,
    ownEntries v = Some own
    /\ entryNames (heap w) (prefix req ++ own ++ postfixEntries (postfix req)) = Some names
    /\ Forall2 (resolves controllers) names chain
    /\ routes (app w')
       = routes (app w)
         ++ map (fun m => Binding m
                            (leafUrl currPath (snd (parseRouteKey (defaultMethod w) route)))
                            chain)
             (methodsOf (fst (parseRouteKey (defaultMethod w) route))).
Proof.
  intros H. unfold buildLeaf in H.
  apply bind_inv in H as (w0 & w1 & Hw & H). inversion Hw; subst w0 w1; clear Hw.
  destruct (parseRouteKey (defaultMethod w) route) as [theMethod routeUrl0].
  apply bind_inv in H as (own & w1 & Hown & H).
  destruct (ownEntries v) as [own'|]; [|discriminate Hown].
  inversion Hown; subst own' w1; clear Hown.
  apply bind_inv in H as (chain & w2 & Hres & H).
  pose proof (resolveAll_frame _ _ _ _ _ _ Hres) as (Ha & _ & _).
  apply resolveAll_names in Hres as (names & Hnames & Hall).
  exists own, names, chain. repeat split; try assumption. cbn [fst snd].
  destruct theMethod as [m|ms]; cbn [methodsOf map].
  - apply expressApply_routes in H. rewrite H, Ha. reflexivity.
  - apply expressApplyEach_routes in H. rewrite H, Ha. reflexivity.
Qed.

(** ** The depth counters *)

Lemma insert_at_end (h : list boxed) (x y : boxed) :
  <[List.length h := x]> (h ++ [y]) = h ++ [x].
Proof. induction h as [|b h IH]; cbn; [reflexivity|]. f_equal. exact IH. Qed.

Lemma lookup_at_end (h : list boxed) (y : boxed) : (h ++ [y]) !! List.length h = Some y.
Proof. induction h as [|b h IH]; cbn; [reflexivity|exact IH]. Qed.

(** A string of the accumulated list becomes a new String object, which
    takes the depth of the group and is decremented: the heap grows, and
    the array that the group declares is not touched. *)
Lemma adjustDepth_boxes_plain (depth : option num) (s : string) (h : list boxed) :
  depthNegative depth = false ->
  adjustDepth depth [EPlain s] h
  = Some ([ERef (List.length h)], h ++ [Boxed s (Some (depthDecr depth))]).
Proof.
  intros Hd. cbn [adjustDepth]. rewrite lookup_at_end. cbn [bdepth bstr depthFalsy].
  rewrite Hd, insert_at_end. reflexivity.
Qed.

(** A String object with a positive depth is decremented in place. *)
Lemma adjustDepth_decrements (depth : option num) (l : nat) (s : string) (d : num)
    (h : list boxed) :
  h !! l = Some (Boxed s (Some d)) -> numFalsy d = false -> numNegative d = false ->
  adjustDepth depth [ERef l] h = Some ([ERef l], <[l := Boxed s (Some (numDecr d))]> h).
Proof.
  intros Hl Hf Hn. cbn [adjustDepth]. rewrite Hl. cbn [bdepth bstr depthFalsy].
  rewrite Hf. cbn [depthNegative depthDecr]. rewrite Hn. reflexivity.
Qed.

(** A String object whose depth is 0 is treated as one without depth: it
    takes the depth of the group again. *)
Lemma adjustDepth_zero_is_absent (depth : option num) (l : nat) (s : string)
    (rest : list entry) (h : list boxed) :
  h !! l = Some (Boxed s (Some (Fin 0))) ->
  adjustDepth depth (ERef l :: rest) h
  = adjustDepth depth (ERef l :: rest) (<[l := Boxed s None]> h).
Proof.
  intros Hl. cbn [adjustDepth]. rewrite Hl.
  rewrite list_lookup_insert_eq by (eapply lookup_lt_Some; exact Hl).
  cbn [bdepth bstr depthFalsy numFalsy Z.eqb]. rewrite !list_insert_insert_eq. reflexivity.
Qed.

(** ** Registration is total *)

(** [registerRoutes] gives [buildRoutes] enough fuel for any route tree. *)
Lemma registerRoutes_has_fuel (tree : jsval) (controllers : ctrl) (w : world) :
  fst (registerRoutes tree controllers w) <> OutOfFuel.
Proof. apply registerRoutes_fuelled. Qed.

(** ** The URL generator and the table *)

Lemma hashGet_own (t : gmap string string) (k : string) :
  existsb (String.eqb k) objectPrototype = false ->
  hashGet t k = match t !! k with Some p => HPath p | None => HUndefined end.
Proof.
  intros H. unfold hashGet. rewrite H.
  destruct (String.eqb k "__proto__") eqn:E; [|reflexivity].
  apply String.eqb_eq in E. subst k. discriminate H.
Qed.

Lemma getControllerUrl_state (controller : string) (params : list (string * string))
    (w : world) :
  snd (getControllerUrl controller params w) = w.
Proof.
  unfold getControllerUrl, bind, getWorld.
  destruct (hashGet (controllerToPathHash w) controller) as [thePath| |].
  - destruct (isEmpty thePath); [reflexivity|].
    destruct (substituteAll params thePath) as [s|]; cbn [modelled ret unsupported];
      [|reflexivity].
    destruct (contains ":" (Url.stripOptional s)); reflexivity.
  - destruct params as [|[param value] params]; [reflexivity|].
    destruct (Url.paramPattern param); reflexivity.
  - reflexivity.
Qed.

Import Change.

(** ** The route tree as a call leaves it *)

(** [InPlace] gives the outcomes and the states of [Router], and the
    route object that [Router] returns. *)
Lemma routeLoop_in_place recurse recurse' controllers currPath kvs req w :
  (forall v p q w0, recurse v p q w0 = InPlace.returned (recurse' v p q w0)) ->
  routeLoop recurse controllers currPath kvs req w
  = InPlace.returned (InPlace.routeLoop recurse' controllers currPath kvs req w).
Proof.
  intros Hrec. revert req w. induction kvs as [|[route v] kvs IH]; intros req w; [reflexivity|].
  cbn [routeLoop InPlace.routeLoop]. destruct (String.eqb route "required").
  - unfold bind. rewrite IH. unfold InPlace.returned. cbn [fst snd].
    destruct (InPlace.routeLoop recurse' controllers currPath kvs req w) as [t [[q|e| |] w1]];
      reflexivity.
  - destruct v; try reflexivity.
    + unfold bind at 1.
      destruct (buildLeaf controllers currPath route (JStr s) req w) as [[[]|e| |] w1];
        try reflexivity.
      unfold bind. rewrite IH. unfold InPlace.returned. cbn [fst snd].
      destruct (InPlace.routeLoop recurse' controllers currPath kvs req w1) as [t [[q|e| |] w2]];
        reflexivity.
    + unfold bind at 1.
      destruct (buildLeaf controllers currPath route (JArr vs) req w) as [[[]|e| |] w1];
        try reflexivity.
      unfold bind. rewrite IH. unfold InPlace.returned. cbn [fst snd].
      destruct (InPlace.routeLoop recurse' controllers currPath kvs req w1) as [t [[q|e| |] w2]];
        reflexivity.
    + unfold bind at 1. rewrite Hrec. unfold InPlace.returned at 1.
      destruct (recurse' (JObj kvs0) (Path.join currPath route) req w) as [t [[q|e| |] w1]];
        cbn [fst snd]; try reflexivity.
      unfold bind. rewrite IH. unfold InPlace.returned. cbn [fst snd].
      destruct (InPlace.routeLoop recurse' controllers currPath kvs q w1) as [t' [[q'|e| |] w2]];
        reflexivity.
Qed.

Lemma buildRoutes_in_place fuel controllers routeObj currPath required w :
  buildRoutes fuel controllers routeObj currPath required w
  = InPlace.returned (InPlace.buildRoutes fuel controllers routeObj currPath required w).
Proof.
  revert routeObj currPath required w.
  induction fuel as [|fuel IH]; intros routeObj currPath required w; [reflexivity|].
  cbn [buildRoutes InPlace.buildRoutes]. destruct routeObj; try reflexivity.
  set (kvs1 := if truthy (getProp (JObj kvs) "required") then kvs
               else setKey "required" emptyRequired kvs).
  unfold InPlace.accumulate, bind, getWorld.
  destruct (defaultDepth (getProp (JObj kvs1) "required")) as [r|]; [|reflexivity].
  cbn [modelled ret].
  repeat match goal with
         | |- context [modelled ?o ?w0] =>
             destruct (modelled o w0) as [[?|?| |] ?]; try reflexivity
         | |- context [adjustPrefix ?d ?p ?w0] =>
             destruct (adjustPrefix d p w0) as [[?|?| |] ?]; try reflexivity
         | |- context [adjustPostfix ?d ?p ?w0] =>
             destruct (adjustPostfix d p w0) as [[?|?| |] ?]; try reflexivity
         end.
  cbn [ret].
  rewrite (routeLoop_in_place _ (fun v p q => InPlace.buildRoutes fuel controllers v p (Some q)))
    by (intros; apply IH).
  unfold InPlace.returned. cbn [fst snd].
  match goal with
  | |- context [InPlace.routeLoop ?r ?c ?p ?k ?q ?w0] =>
      destruct (InPlace.routeLoop r c p k q w0) as [t [[?|?| |] ?]]; reflexivity
  end.
Qed.

Lemma registerRoutes_in_place tree controllers w :
  registerRoutes tree controllers w
  = onOutput fst (InPlace.returned (InPlace.registerRoutes tree controllers w)).
Proof.
  unfold registerRoutes, InPlace.registerRoutes, bind. rewrite buildRoutes_in_place.
  unfold InPlace.returned, onOutput. cbn [fst snd].
  destruct (InPlace.buildRoutes _ _ _ _ _ _) as [t [[?|?| |] ?]]; reflexivity.
Qed.

(** ** The marks on the groups *)



Lemma markGroup_unfold (kvs : list (string * jsval)) :
  Spec.markGroup kvs
  = match defaultDepth (getProp (JObj (if truthy (getProp (JObj kvs) "required") then kvs
                                       else setKey "required" emptyRequired kvs)) "required") with
    | Some r => setKey "required" r (if truthy (getProp (JObj kvs) "required") then kvs
                                     else setKey "required" emptyRequired kvs)
    | None => if truthy (getProp (JObj kvs) "required") then kvs
              else setKey "required" emptyRequired kvs
    end.
Proof. reflexivity. Qed.


(** ** The String objects *)

Lemma passes_trans (d1 d2 d3 : option num) : passes d1 d2 -> passes d2 d3 -> passes d1 d3.
Proof.
  intros H. induction H as [d|depth d d' H IH]; intros H3; [exact H3|].
  eapply passes_more. apply IH, H3.
Qed.

Lemma depthsOnly_refl (h : list boxed) : depthsOnly h h.
Proof. intros l b Hl. exists b. repeat split; [exact Hl|constructor]. Qed.

Lemma depthsOnly_trans (h1 h2 h3 : list boxed) :
  depthsOnly h1 h2 -> depthsOnly h2 h3 -> depthsOnly h1 h3.
Proof.
  intros H12 H23 l b Hl. destruct (H12 l b Hl) as (b2 & Hl2 & Hs2 & Hd2).
  destruct (H23 l b2 Hl2) as (b3 & Hl3 & Hs3 & Hd3). exists b3.
  repeat split; [exact Hl3|congruence|eapply passes_trans; eassumption].
Qed.

Lemma depthsOnly_app (h new : list boxed) : depthsOnly h (h ++ new).
Proof.
  intros l b Hl. exists b. repeat split; [|constructor].
  apply lookup_app_l_Some. exact Hl.
Qed.

Lemma depthsOnly_insert (h : list boxed) (l : nat) (b : boxed) (depth : option num) :
  h !! l = Some b ->
  depthsOnly h (<[l := Boxed (bstr b) (pass depth (bdepth b))]> h).
Proof.
  intros Hl l' b' Hl'. destruct (decide (l' = l)) as [->|Hne].
  - rewrite Hl in Hl'. inversion Hl'; subst b'.
    exists (Boxed (bstr b) (pass depth (bdepth b))). repeat split.
    + apply list_lookup_insert_eq. eapply lookup_lt_Some. exact Hl.
    + eapply passes_more. constructor.
  - exists b'. repeat split; [|constructor].
    rewrite list_lookup_insert_ne by congruence. exact Hl'.
Qed.

Lemma adjustDepth_depthsOnly (depth : option num) (objArray objArray' : list entry)
    (h h' : list boxed) :
  adjustDepth depth objArray h = Some (objArray', h') -> depthsOnly h h'.
Proof.
  revert objArray' h h'. induction objArray as [|e rest IH]; intros objArray' h h' H.
  - inversion H; subst. apply depthsOnly_refl.
  - cbn [adjustDepth] in H.
    set (lh := match e with
               | EPlain s => (List.length h, h ++ [Boxed s None])
               | ERef l => (l, h)
               end) in H.
    assert (Hh1 : depthsOnly h (snd lh)).
    { destruct e; [apply depthsOnly_app|apply depthsOnly_refl]. }
    destruct lh as [l h1]. cbn [snd] in Hh1.
    destruct (h1 !! l) as [b|] eqn:Hl; [|discriminate H].
    pose proof (depthsOnly_insert h1 l b depth Hl) as Hins. unfold pass in Hins.
    destruct (depthNegative (if depthFalsy (bdepth b) then depth else bdepth b)).
    + apply IH in H. eapply depthsOnly_trans; [exact Hh1|].
      eapply depthsOnly_trans; [exact Hins|exact H].
    + destruct (adjustDepth depth rest _) as [[rest' h2]|] eqn:Hrest; [|discriminate H].
      inversion H; subst. apply IH in Hrest. eapply depthsOnly_trans; [exact Hh1|].
      eapply depthsOnly_trans; [exact Hins|exact Hrest].
Qed.












(** ** A second registration *)

Lemma setKey_setKey {A : Type} (k : string) (v v' : A) (kvs : list (string * A)) :
  setKey k v (setKey k v' kvs) = setKey k v kvs.
Proof.
  induction kvs as [|[k0 v0] kvs IH]; cbn; [rewrite String.eqb_refl; reflexivity|].
  destruct (String.eqb k0 k) eqn:E; cbn; rewrite E; [reflexivity|]. f_equal. exact IH.
Qed.

Lemma setKey_same {A : Type} (k : string) (v : A) (kvs : list (string * A)) :
  lookupKey k kvs = Some v -> setKey k v kvs = kvs.
Proof.
  induction kvs as [|[k0 v0] kvs IH]; cbn; [discriminate|].
  destruct (String.eqb k0 k) eqn:E; intros H; [inversion H; reflexivity|].
  f_equal. apply IH, H.
Qed.

Lemma defaultDepth_again (r0 r : jsval) :
  truthy r0 = true -> defaultDepth r0 = Some r -> truthy r = true /\ defaultDepth r = Some r.
Proof.
  intros Ht H. destruct r0; cbn in H; try discriminate H.
  - inversion H; subst. split; [exact Ht|reflexivity].
  - inversion H; subst. split; [exact Ht|reflexivity].
  - destruct (truthy (default JUndef (lookupKey "depth" kvs))) eqn:Ed.
    + destruct (default JUndef (lookupKey "depth" kvs)) eqn:Ev; inversion H; subst.
      split; [reflexivity|]. cbn. rewrite Ev. cbn in Ed |- *. rewrite Ed. reflexivity.
    + inversion H; subst. split; [reflexivity|]. cbn. rewrite lookupKey_setKey. reflexivity.
Qed.

Lemma getProp_markChildren (f : jsval -> jsval) (kvs : list (string * jsval)) :
  getProp (JObj (Spec.markChildren f kvs)) "required" = getProp (JObj kvs) "required".
Proof. cbn. rewrite lookupKey_markChildren. reflexivity. Qed.

Lemma markChildren_markGroup (f : jsval -> jsval) (kvs : list (string * jsval)) :
  Spec.markChildren f (Spec.markGroup kvs) = Spec.markGroup (Spec.markChildren f kvs).
Proof.
  unfold Spec.markGroup. rewrite getProp_markChildren.
  destruct (truthy (getProp (JObj kvs) "required")).
  - rewrite getProp_markChildren.
    destruct (defaultDepth (getProp (JObj kvs) "required")); [|reflexivity].
    apply markChildren_setKey.
  - rewrite <- markChildren_setKey. rewrite getProp_markChildren.
    destruct (defaultDepth _); [|reflexivity]. apply markChildren_setKey.
Qed.

Lemma markGroup_required (kvs : list (string * jsval)) :
  exists r0, truthy r0 = true
    /\ getProp (JObj (if truthy (getProp (JObj kvs) "required") then kvs
                      else setKey "required" emptyRequired kvs)) "required" = r0.
Proof.
  destruct (truthy (getProp (JObj kvs) "required")) eqn:E.
  - exists (getProp (JObj kvs) "required"). split; [exact E|reflexivity].
  - exists emptyRequired. split; [reflexivity|]. cbn. rewrite lookupKey_setKey. reflexivity.
Qed.

Lemma markGroup_markGroup (kvs : list (string * jsval)) :
  Spec.markGroup (Spec.markGroup kvs) = Spec.markGroup kvs.
Proof.
  rewrite (markGroup_unfold kvs).
  destruct (markGroup_required kvs) as (r0 & Ht & Hr0).
  set (kvs1 := if truthy (getProp (JObj kvs) "required") then kvs
               else setKey "required" emptyRequired kvs) in *.
  rewrite Hr0. destruct (defaultDepth r0) as [r|] eqn:Ed.
  - destruct (defaultDepth_again r0 r Ht Ed) as [Hr Hd].
    unfold Spec.markGroup.
    assert (Hg : getProp (JObj (setKey "required" r kvs1)) "required" = r).
    { cbn. rewrite lookupKey_setKey. reflexivity. }
    rewrite Hg, Hr, Hg, Hd. apply setKey_setKey.
  - unfold Spec.markGroup. rewrite Hr0, Ht, Hr0, Ed. reflexivity.
Qed.

Lemma markChildren_markChildren (f g : jsval -> jsval) (kvs : list (string * jsval)) :
  (forall k v, In (k, v) kvs -> f (g v) = g v) ->
  Spec.markChildren f (Spec.markChildren g kvs) = Spec.markChildren g kvs.
Proof.
  unfold Spec.markChildren.
  induction kvs as [|[k v] kvs IH]; intros H; [reflexivity|]. cbn [map fst snd].
  rewrite IH by (intros k0 v0 Hin; apply (H k0 v0); right; exact Hin). f_equal.
  destruct (String.eqb k "required"); [reflexivity|]. f_equal. apply (H k v). left. reflexivity.
Qed.

Lemma markRequired_markRequired (v : jsval) :
  Spec.markRequired (Spec.markRequired v) = Spec.markRequired v.
Proof.
  remember (S (height v)) as n eqn:Hn. assert (Hlt : height v < n) by lia. clear Hn.
  revert v Hlt. induction n as [|n IH]; intros v Hlt; [lia|].
  destruct v; try reflexivity. cbn [Spec.markRequired].
  rewrite markChildren_markGroup, markGroup_markGroup. f_equal. f_equal.
  apply markChildren_markChildren. intros k v Hin. apply IH.
  apply height_child in Hin. lia.
Qed.

(** A registration of a tree that a registration has returned gives the
    tree back as it is. *)
Lemma registerRoutes_twice tree controllers w tree' w' controllers' tree'' w'' :
  registerRoutes tree controllers w = (Ok tree', w') ->
  registerRoutes tree' controllers' w' = (Ok tree'', w'') ->
  tree'' = tree'.
Proof.
  intros H1 H2. unfold registerRoutes in H1, H2.
  apply bind_inv in H1 as (out1 & w1 & Hout1 & H1). inversion H1; subst.
  apply bind_inv in H2 as (out2 & w2 & Hout2 & H2). inversion H2; subst.
  rewrite (buildRoutes_marks _ _ _ _ _ _ _ _ Hout2), (buildRoutes_marks _ _ _ _ _ _ _ _ Hout1).
  apply markRequired_markRequired.
Qed.





(** What the route object and the outcome of [InPlace] say of [Router]. *)
Lemma registerRoutes_returned tree controllers w tree' w' :
  registerRoutes tree controllers w = (Ok tree', w') ->
  fst (InPlace.registerRoutes tree controllers w) = tree'.
Proof.
  rewrite registerRoutes_in_place. unfold onOutput, InPlace.returned. cbn [fst snd].
  destruct (InPlace.registerRoutes tree controllers w) as [t [[q|e| |] w1]]; cbn [fst snd];
    intros H; inversion H; reflexivity.
Qed.


(** ** Slips of the source, at concrete inputs *)

(** Line 159 spells [put] as [pul]: a key with the single method [put]
    keeps its method prefix in the path. *)
Example put_prefix_is_not_stripped :
  parseRouteKey "get" "put/x" = (Single "put", "put/x")
  /\ parseRouteKey "get" "PUT,get/x" = (Multiple ["put"; "get"], "/x").
Proof. split; reflexivity. Qed.

(** The expression of line 226 runs from a colon to the next question
    mark, whatever lies between: a required placeholder before an optional
    one is removed with it, and no parameter is reported missing. *)
Example stripOptional_swallows_required :
  Url.stripOptional "/:a/b/:c?" = "/" /\ Spec.stripPlaceholders "/:a/b/:c?" = "/:a/b/".
Proof. split; reflexivity. Qed.

(** The table is the object [{}]: the name of a member of
    [Object.prototype] is found in it though no path was recorded for it,
    and the call fails with a type error where [replace] is applied. *)
Example inherited_member_is_found :
  fst (getControllerUrl "constructor" [] Fixture.initial) = Throw TypeError
  /\ controllerToPathHash Fixture.initial !! "constructor" = None.
Proof. split; reflexivity. Qed.

(** ** The claims *)

(** C1.  A prefix declared with depth 0 is injected into the chains of the
    direct children of its group only.  The source registers it for the
    grandchildren too: a depth of 0 is falsy, so line 124 replaces the
    [depth: 0] of a [required] object by [Infinity], and line 134 gives a
    String object whose own depth is 0 the depth of the group.  The two
    trees are the group [/nodepth] of the test suite, and the same with
    [DepthString('intercept', 0)]; the chain of [/nodepth/depth/test]
    still starts with [intercept]. *)
Theorem depth_zero_prefix_reaches_grandchildren :
  Fixture.registered
    (registerRoutes Fixture.nodepthTree Fixture.controllers Fixture.initial)
  = [Binding "get" "/nodepth/test" [CFun "intercept"; CFun "test"];
     Binding "get" "/nodepth/depth/test" [CFun "intercept"; CFun "test"]]
  /\ Fixture.registered
       (registerRoutes Fixture.depthStringTree Fixture.controllers
          (snd (DepthString (JStr "intercept") (JNum (Fin 0)) Fixture.initial)))
     = [Binding "get" "/nodepth/test" [CFun "intercept"; CFun "test"];
        Binding "get" "/nodepth/depth/test" [CFun "intercept"; CFun "test"]].
Proof. split; vm_compute; reflexivity. Qed.

(** C2.  What a group declares as [required] does not reach the chains of
    a sibling group.  The source passes one object [required] to every
    recursive call and assigns to its properties (lines 127 and 128), so
    the entries of a group stay in it when the call returns: the chain of
    [/b/y] ends with the postfix of [/a], and in the groups [/prefix] and
    [/postfix] of the test suite the chain of [/postfix/test] starts with
    the prefix of [/prefix]. *)
Theorem sibling_required_leaks :
  Fixture.registered
    (registerRoutes Fixture.siblingTree Fixture.controllers Fixture.initial)
  = [Binding "get" "/a/x" [CFun "test"; CFun "intercept"];
     Binding "get" "/b/y" [CFun "test"; CFun "donotintercept"; CFun "intercept"]]
  /\ Fixture.registered
       (registerRoutes Fixture.prefixPostfixTree Fixture.controllers Fixture.initial)
     = [Binding "get" "/prefix/test" [CFun "intercept"; CFun "test"];
        Binding "get" "/postfix/test" [CFun "intercept"; CFun "test"; CFun "intercept"];
        Binding "get" "/postfix/donotintercept"
          [CFun "intercept"; CFun "donotintercept"; CFun "intercept"]].
Proof. split; vm_compute; reflexivity. Qed.

(** C3.  The chain of a leaf is the effective prefix, the names of the
    leaf, and the effective postfix, which is the postfix of the group
    followed by that of its ancestors.  With the postfix of a group
    declared as a string, line 128 calls [concat] of the string: the
    postfix of the ancestors is appended to it as text.  Below [/a], whose
    postfix is [intercept], the group [/b] with the postfix [test] gives
    its leaf the single name [testintercept], which does not resolve. *)
Theorem string_postfix_is_joined_as_text :
  fst (registerRoutes Fixture.nestedPostfixTree Fixture.controllers Fixture.initial)
  = Throw (InvalidControllerPath ["testintercept"])
  /\ Fixture.registered
       (registerRoutes Fixture.nestedPostfixTree Fixture.controllers Fixture.initial) = []
  /\ controllerToPathHash
       (snd (registerRoutes Fixture.nestedPostfixTree Fixture.controllers Fixture.initial))
     !! "testintercept" = Some "/a/b/c".
Proof. repeat split; vm_compute; reflexivity. Qed.

(** The accumulated lists when every declaration is an array: the prefix
    of the group comes after what it receives, its postfix before. *)
Lemma array_declarations_concatenate (h : list boxed) (acc : required)
    (pre post received : list entry) :
  postfix acc = PArr received ->
  concatPrefix (prefix acc) (DArr pre) = prefix acc ++ pre
  /\ concatPostfix h (DArr post) (postfix acc) = Some (PArr (post ++ received))
  /\ forall own, expressCallOf (Required (prefix acc ++ pre) (PArr (post ++ received))) own
                 = (prefix acc ++ pre) ++ own ++ (post ++ received).
Proof. intros H. rewrite H. repeat split. Qed.

(** C4, as amended.  When no parameter name holds a character that is
    special in a regular expression, no value holds a dollar, and in the
    path after substitution only name characters stand between a colon
    and the next question mark, [getControllerUrl] replaces every
    occurrence of [:key], with the question marks after it, by the value
    of [key], literally and with regard to case, then removes the optional
    placeholders [:name?] that remain and nothing else; it fails if a colon
    is left and returns the normalized path otherwise. *)
Theorem getControllerUrl_literal (w : world) (controller : string)
    (params : list (string * string)) (thePath : string) :
  hashGet (controllerToPathHash w) controller = HPath thePath ->
  thePath <> "" ->
  forallb literalParam params = true ->
  Spec.cleanPlaceholders (Spec.substituteAll params thePath) = true ->
  getControllerUrl controller params w
  = (if contains ":" (Spec.stripPlaceholders (Spec.substituteAll params thePath))
     then Throw (MissingParameters (Spec.stripPlaceholders (Spec.substituteAll params thePath)))
     else Ok (Path.join "" (Spec.stripPlaceholders (Spec.substituteAll params thePath))), w).
Proof.
  intros Hh Hne Hparams Hclean. unfold getControllerUrl, bind, getWorld. rewrite Hh.
  destruct thePath as [|c thePath]; [congruence|]. cbn [isEmpty].
  rewrite substituteAll_literal by assumption. cbn [modelled ret].
  rewrite stripOptional_clean by assumption.
  destruct (contains ":" _); reflexivity.
Qed.

(** Counterexample to C4: a parameter name is the source of a regular
    expression.  The name
    [.] matches any character, so [:a] is replaced, where a literal
    substitution finds no [:.] in the path and leaves the colon. *)
Lemma dot_parameter_matches_any_character :
  getControllerUrl "name" [(".", "X")]
    (snd (registerRoutes (JObj [("/:a", JStr "name")]) Fixture.namedControllers
            Fixture.initial))
  = (Ok "/X",
     snd (registerRoutes (JObj [("/:a", JStr "name")]) Fixture.namedControllers
            Fixture.initial))
  /\ Spec.stripPlaceholders (Spec.substituteAll [(".", "X")] "/:a") = "/:a".
Proof. split; vm_compute; reflexivity. Qed.

(** Witness of C4, the example of the claim: [{ "/test/:v": "name" }] is registered
    and the URL of [name] with [v = 12] is [/test/12]. *)
Lemma getControllerUrl_literal_witness :
  getControllerUrl "name" [("v", "12")]
    (snd (registerRoutes (JObj [("/test/:v", JStr "name")]) Fixture.namedControllers
            Fixture.initial))
  = (Ok "/test/12",
     snd (registerRoutes (JObj [("/test/:v", JStr "name")]) Fixture.namedControllers
            Fixture.initial)).
Proof.
  apply (getControllerUrl_literal _ "name" [("v", "12")] "/test/:v");
    [reflexivity|discriminate|reflexivity|reflexivity].
Defined.

(** Counterexample to C5: [del] is none of the methods that the claim lists, so the claim
    gives the key [del/x] the default method and keeps it whole; the
    source takes [del] as its method and strips it. *)
Lemma del_is_a_method_prefix :
  parseRouteKey "get" "del/x" = (Single "del", "/x")
  /\ Spec.parseRouteKey "get" "del/x" = (["get"], "del/x").
Proof. split; reflexivity. Qed.

(** C5, as amended.  For every route key that begins with a list, separated
    by commas, of the names get, post, put, del, delete and all in any
    case, followed by a slash, the parser gives these names in lower case
    as the methods and the key without the list as the path; the key
    whose list is [put] alone is left out.  A key whose leading segment is
    empty, or holds a character outside the class [adeglopstu,], or that
    has no slash, gets the default method and is the path unchanged. *)
Theorem parseRouteKey_method_lists (defaultMethod : string) :
  (forall (ms : list string) (rest : string),
     ms <> [] -> forallb accepted ms = true ->
     (forall m, ms = [m] -> toLowerCase m <> "put") ->
     methodsOf (fst (parseRouteKey defaultMethod (join "," ms +:+ String "/" rest)))
     = map toLowerCase ms
     /\ snd (parseRouteKey defaultMethod (join "," ms +:+ String "/" rest))
        = String "/" rest)
  /\ (forall key : string,
        noMethodPrefix key -> parseRouteKey defaultMethod key = (Single defaultMethod, key)).
Proof.
  split; [|intros key; apply parseRouteKey_default].
  intros ms rest Hne Hacc Hput. rewrite parseRouteKey_methods by assumption.
  cbn [fst snd]. split; [|reflexivity].
  destruct ms as [|m [|m' ms]]; [congruence| |reflexivity].
  destruct (existsb _ _); reflexivity.
Qed.

(** Witness of C5: a list of two methods, and a key without a method. *)
Lemma parseRouteKey_method_lists_witness :
  (methodsOf (fst (parseRouteKey "get" "GET,post/login")) = ["get"; "post"]
   /\ snd (parseRouteKey "get" "GET,post/login") = "/login")
  /\ parseRouteKey "get" "/:username" = (Single "get", "/:username").
Proof.
  split.
  - apply (proj1 (parseRouteKey_method_lists "get") ["GET"; "post"] "login");
      [discriminate|reflexivity|discriminate].
  - apply (proj2 (parseRouteKey_method_lists "get") "/:username").
    right. left. reflexivity.
Defined.

(** Counterexample to C6: the leading segment [gett] is no list of method names, yet it is
    made of characters of the class: the source takes it as the method
    and strips it, and the call of [express.gett] is a type error, where
    the claim registers the key under the default method. *)
Lemma malformed_list_is_taken_as_methods :
  parseRouteKey "get" "gett/x" = (Multiple ["gett"], "/x")
  /\ Spec.parseRouteKey "get" "gett/x" = (["get"], "gett/x")
  /\ fst (buildLeaf Fixture.controllers "" "gett/x" (JStr "test")
            (Required [] (PArr [])) Fixture.initial) = Throw TypeError.
Proof. repeat split; vm_compute; reflexivity. Qed.

(** C6, as amended.  For every route key whose leading segment before the
    first slash is empty or holds a character outside the class
    [adeglopstu,], and for every key without a slash, the parser raises no
    error and finds no method prefix: a leaf under that key that registers
    is registered with the default method, and the whole key is its path
    fragment.  A leading segment made of characters of the class only is
    the method list as it stands, whether its names are methods or not. *)
Theorem parseRouteKey_falls_through :
  (forall (controllers : ctrl) (currPath route : string) (v : jsval) (req : required)
          (w : world),
     noMethodPrefix route ->
     parseRouteKey (defaultMethod w) route = (Single (defaultMethod w), route)
     /\ forall w', buildLeaf controllers currPath route v req w = (Ok tt, w') ->
          exists chain,
            routes (app w') = routes (app w)
                              ++ [Binding (defaultMethod w) (leafUrl currPath route) chain])
  /\ (forall defaultMethod run rest : string,
        all isMethodChar run = true -> isEmpty run = false ->
        existsb (String.eqb (toLowerCase run)) methodNames = false ->
        parseRouteKey defaultMethod (run +:+ String "/" rest)
        = (Multiple (split "," (toLowerCase run)), String "/" rest)).
Proof.
  split; [|exact parseRouteKey_class_run].
  intros controllers currPath route v req w H. split; [apply parseRouteKey_default, H|].
  intros w'. apply buildLeaf_default, H.
Qed.

(** Witness of C6: a leading segment with letters outside the class, and
    one with letters of the class that spell no method. *)
Lemma parseRouteKey_falls_through_witness :
  (parseRouteKey "get" "foo,bar/x" = (Single "get", "foo,bar/x")
   /\ forall w', buildLeaf Fixture.controllers "/social" "foo,bar/x" (JStr "test")
                   (Required [] (PArr [])) Fixture.initial = (Ok tt, w') ->
        exists chain,
          routes (app w') = [Binding "get" "/social/foo,bar/x" chain])
  /\ parseRouteKey "get" "get,,Glue/x" = (Multiple ["get"; ""; "glue"], "/x").
Proof.
  split.
  - apply (proj1 parseRouteKey_falls_through Fixture.controllers "/social" "foo,bar/x"
             (JStr "test") (Required [] (PArr [])) Fixture.initial).
    right. right. reflexivity.
  - apply (proj2 parseRouteKey_falls_through "get" "get,,Glue" "x"); reflexivity.
Defined.

(** Counterexample to C7: [delete] is one of the methods of the claim, and [setDefaultMethod]
    refuses it; [del], which the claim does not list, is accepted. *)
Lemma setDefaultMethod_rejects_delete :
  setDefaultMethod "delete" Fixture.initial
  = (Throw (InvalidMethodName "delete"), Fixture.initial)
  /\ Spec.isMethod "delete" = true
  /\ setDefaultMethod "DEL" Fixture.initial = (Ok tt, setDefault "del" Fixture.initial)
  /\ Spec.isMethod "DEL" = false.
Proof. repeat split; reflexivity. Qed.

(** C7, as amended.  [setDefaultMethod] succeeds exactly on the strings
    that equal one of get, post, put, del and all up to the case of the
    letters: it stores the name in lower case as the default method, which
    is what the parser reads, and changes nothing else.  On every other
    string it throws and leaves the state as it is. *)
Theorem setDefaultMethod_spec (theMethod : string) (w : world) :
  setDefaultMethod theMethod w
  = if existsb (String.eqb (toLowerCase theMethod)) methodNames
    then (Ok tt, setDefault (toLowerCase theMethod) w)
    else (Throw (InvalidMethodName theMethod), w).
Proof.
  unfold setDefaultMethod, isMethodName. rewrite isMethodName_spec.
  destruct (existsb _ _); reflexivity.
Qed.

(** C8, as amended.  [getControllerUrl] changes no state.  For a name
    that [Object.prototype] does not define, it fails with [Invalid
    Controller Requested] exactly when [controllerToPathHash] has no
    entry for the name or the path recorded for it is the empty string.
    When a non-empty path is recorded, the parameters are taken
    literally, and only name characters stand between a colon and the
    next question mark of the substituted path, it fails exactly when a
    colon remains after the substitution and the removal of the optional
    placeholders: with [Missing required parameter(s)] and the path that
    remains, and in no other way.  Otherwise it returns that path,
    normalized. *)
Theorem getControllerUrl_failures (w : world) (controller : string)
    (params : list (string * string)) :
  snd (getControllerUrl controller params w) = w /\
  (existsb (String.eqb controller) objectPrototype = false ->
   (fst (getControllerUrl controller params w) = Throw InvalidControllerRequested
    <-> controllerToPathHash w !! controller = None
        \/ controllerToPathHash w !! controller = Some "") /\
   (forall thePath,
      controllerToPathHash w !! controller = Some thePath -> thePath <> "" ->
      forallb literalParam params = true ->
      Spec.cleanPlaceholders (Spec.substituteAll params thePath) = true ->
      (fst (getControllerUrl controller params w)
       = Throw (MissingParameters (Spec.stripPlaceholders (Spec.substituteAll params thePath)))
       <-> contains ":" (Spec.stripPlaceholders (Spec.substituteAll params thePath)) = true)
      /\ (forall e, fst (getControllerUrl controller params w) = Throw e ->
          e = MissingParameters (Spec.stripPlaceholders (Spec.substituteAll params thePath)))
      /\ (contains ":" (Spec.stripPlaceholders (Spec.substituteAll params thePath)) = false ->
          fst (getControllerUrl controller params w)
          = Ok (Path.join "" (Spec.stripPlaceholders (Spec.substituteAll params thePath)))))).
Proof.
  split; [apply getControllerUrl_state|]. intros Hown. split.
  - unfold getControllerUrl, bind, getWorld. rewrite (hashGet_own _ _ Hown).
    destruct (controllerToPathHash w !! controller) as [thePath|] eqn:E.
    + destruct thePath as [|c thePath]; cbn [isEmpty fst throw].
      * split; [intros _; right; reflexivity|reflexivity].
      * split; [|intros [H|H]; discriminate H].
        destruct (substituteAll params (String c thePath)) as [s|];
          cbn [modelled ret unsupported]; [|discriminate].
        destruct (contains ":" (Url.stripOptional s)); discriminate.
    + cbn [fst throw]. split; [intros _; left; reflexivity|reflexivity].
  - intros thePath E Hne Hparams Hclean.
    assert (Hrun : getControllerUrl controller params w
                   = (if contains ":" (Spec.stripPlaceholders (Spec.substituteAll params thePath))
                      then Throw (MissingParameters
                                    (Spec.stripPlaceholders (Spec.substituteAll params thePath)))
                      else Ok (Path.join ""
                                 (Spec.stripPlaceholders (Spec.substituteAll params thePath))),
                      w)).
    { unfold getControllerUrl, bind, getWorld. rewrite (hashGet_own _ _ Hown), E.
      destruct thePath as [|c thePath]; [congruence|]. cbn [isEmpty].
      rewrite substituteAll_literal by assumption. cbn [modelled ret].
      rewrite stripOptional_clean by assumption.
      destruct (contains ":" _); reflexivity. }
    rewrite Hrun. cbn [fst].
    destruct (contains ":" (Spec.stripPlaceholders (Spec.substituteAll params thePath)));
      (split; [split; congruence|split; congruence]).
Qed.

(** Counterexample to C8: the empty key at the top of a route tree records the empty path
    for its controller.  The entry exists, and [getControllerUrl] fails
    as if it did not. *)
Lemma empty_path_is_unknown :
  controllerToPathHash
    (snd (registerRoutes (JObj [("", JStr "index")]) Fixture.namedControllers
            Fixture.initial)) !! "index" = Some ""
  /\ fst (getControllerUrl "index" []
            (snd (registerRoutes (JObj [("", JStr "index")]) Fixture.namedControllers
                    Fixture.initial)))
     = Throw InvalidControllerRequested.
Proof. split; vm_compute; reflexivity. Qed.

(** Witness of C8: the two failures that the test suite provokes. *)
Lemma getControllerUrl_failures_witness :
  fst (getControllerUrl "test" []
         (snd (registerRoutes (JObj [("/test/:testVar", JStr "test")])
                 Fixture.controllers Fixture.initial)))
  = Throw (MissingParameters "/test/:testVar")
  /\ fst (getControllerUrl "controllers.test" []
            (snd (registerRoutes (JObj [("/test/:testVar", JStr "test")])
                    Fixture.controllers Fixture.initial)))
     = Throw InvalidControllerRequested.
Proof.
  split.
  - apply (proj1 (proj2 (proj2 (getControllerUrl_failures
             (snd (registerRoutes (JObj [("/test/:testVar", JStr "test")])
                     Fixture.controllers Fixture.initial)) "test" []) eq_refl)
             "/test/:testVar" eq_refl ltac:(discriminate) eq_refl eq_refl)).
    reflexivity.
  - apply (proj1 (proj2 (getControllerUrl_failures
             (snd (registerRoutes (JObj [("/test/:testVar", JStr "test")])
                     Fixture.controllers Fixture.initial)) "controllers.test" []) eq_refl)).
    left. reflexivity.
Defined.




(** The String object [DepthString('intercept', 2)] of a prefix is the
    object that registration decrements: a second registration of the
    same tree finds the depth 1 and leaves 0, and a third one, finding 0,
    starts again from the depth of the group. *)
Example registrations_share_the_String_object :
  let w0 := snd (DepthString (JStr "intercept") (JNum (Fin 2)) Fixture.initial) in
  let w1 := snd (registerRoutes Fixture.boxedTree Fixture.controllers w0) in
  let w2 := snd (registerRoutes Fixture.boxedTree Fixture.controllers w1) in
  let w3 := snd (registerRoutes Fixture.boxedTree Fixture.controllers w2) in
  heap w0 = [Boxed "intercept" (Some (Fin 2))]
  /\ heap w1 = [Boxed "intercept" (Some (Fin 1))]
  /\ heap w2 = [Boxed "intercept" (Some (Fin 0))]
  /\ heap w3 = [Boxed "intercept" (Some (Fin 2))]
  /\ fst (registerRoutes Fixture.boxedTree Fixture.controllers w0) = Ok Fixture.boxedTree.
Proof. repeat split; vm_compute; reflexivity. Qed.

(** C10.  In a group the key [required] is never a route: whatever value
    it holds, the loop over the keys makes no call to the server for it,
    does not recurse into it and records no path for it.  The loop runs on
    a group as it runs on the group without that key, for every way
    [recurse] of handling a child group and from every state; the value
    under the key is handed back as it is. *)
Theorem required_key_is_not_a_route recurse controllers currPath kvs req w :
  routeLoop recurse controllers currPath (List.filter notRequired kvs) req w
  = onOutput (fun out => (List.filter notRequired (fst out), snd out))
      (routeLoop recurse controllers currPath kvs req w).
Proof.
  revert req w. induction kvs as [|[route v] kvs IH]; intros req w; [reflexivity|].
  rewrite filter_notRequired_cons. cbn [routeLoop].
  destruct (String.eqb route "required") eqn:E.
  - loop_step IH E filter_notRequired_cons.
  - cbn [routeLoop]. rewrite E. destruct v; try reflexivity.
    + unfold bind at 1 3.
      destruct (buildLeaf controllers currPath route (JStr s) req w) as [[[]|e| |] w'];
        try reflexivity. loop_step IH E filter_notRequired_cons.
    + unfold bind at 1 3.
      destruct (buildLeaf controllers currPath route (JArr vs) req w) as [[[]|e| |] w'];
        try reflexivity. loop_step IH E filter_notRequired_cons.
    + unfold bind at 1 3.
      destruct (recurse (JObj kvs0) (Path.join currPath route) req w) as [[sub|e| |] w'];
        try reflexivity. loop_step IH E filter_notRequired_cons.
Qed.

(** * Further properties *)

Import Frame Loader.

(** ** Names with dots *)

Lemma split_app (sep : ascii) (a b : string) :
  split sep (a +:+ String sep b) = split sep a ++ split sep b.
Proof.
  induction a as [|c a IH]; cbn [String.append split].
  - rewrite Ascii.eqb_refl. reflexivity.
  - destruct (Ascii.eqb c sep); [rewrite IH; reflexivity|]. rewrite IH.
    destruct (split sep a) as [|piece pieces] eqn:E; [|reflexivity].
    exfalso. exact (split_nonempty sep a E).
Qed.

Lemma walk_app (controller : ctrl) (h1 h2 : list string) :
  walk controller (h1 ++ h2)
  = match walk controller h1 with
    | Some c => walk c h2
    | None => None
    end.
Proof.
  revert controller. induction h1 as [|h h1 IH]; intros controller; [reflexivity|].
  simpl. destruct controller as [f|members]; [reflexivity|].
  destruct (lookupKey h members); [apply IH|reflexivity].
Qed.

(** X1.  A name [a.b] resolves to what [b] resolves to in the namespace
    that [a] resolves to, and to nothing else; when it does not resolve,
    the error names the whole hierarchy.  [getController] changes no
    state. *)
Theorem getController_composes (controllers : ctrl) (a b : string) (w : world) :
  (forall c, fst (getController controllers (a +:+ String "." b) w) = Ok c
             <-> exists c0, fst (getController controllers a w) = Ok c0
                            /\ fst (getController c0 b w) = Ok c)
  /\ (forall e, fst (getController controllers (a +:+ String "." b) w) = Throw e
                <-> e = InvalidControllerPath (split "." a ++ split "." b)
                    /\ forall c0, fst (getController controllers a w) = Ok c0 ->
                                  fst (getController c0 b w)
                                  = Throw (InvalidControllerPath (split "." b)))
  /\ snd (getController controllers (a +:+ String "." b) w) = w.
Proof.
  unfold getController. rewrite split_app, walk_app.
  destruct (walk controllers (split "." a)) as [c0|]; cbn [fst snd ret throw].
  - destruct (walk c0 (split "." b)) as [c1|] eqn:E; cbn [fst snd ret throw].
    + split; [|split; [|reflexivity]].
      * intros c. split.
        -- intros H. exists c0. rewrite E. auto.
        -- intros (c' & H1 & H2). inversion H1; subst c'. rewrite E in H2. exact H2.
      * intros e. split; [discriminate|]. intros [_ H]. specialize (H c0 eq_refl).
        rewrite E in H. discriminate H.
    + split; [|split; [|reflexivity]].
      * intros c. split; [discriminate|].
        intros (c' & H1 & H2). inversion H1; subst c'. rewrite E in H2. discriminate H2.
      * intros e. split.
        -- intros H. inversion H; subst e. split; [reflexivity|].
           intros c' H1. inversion H1; subst c'. rewrite E. reflexivity.
        -- intros [-> _]. reflexivity.
  - split; [|split; [|reflexivity]].
    + intros c. split; [discriminate|]. intros (c' & H1 & _). discriminate H1.
    + intros e. split.
      * intros H. inversion H; subst e. split; [reflexivity|]. intros c' H1. discriminate H1.
      * intros [-> _]. reflexivity.
Qed.

(** ** The route key *)

(** X2.  The parser always gives at least one method, and the path that it
    gives is the key without a prefix made of characters of the class
    [adeglopstu,]: it is never cut at or after a slash, and never changed. *)
Theorem parseRouteKey_keeps_path (defaultMethod route : string) :
  (exists m ms, methodsOf (fst (parseRouteKey defaultMethod route)) = m :: ms)
  /\ (exists pre, route = pre +:+ snd (parseRouteKey defaultMethod route)
                  /\ all isMethodChar pre = true).
Proof.
  unfold parseRouteKey.
  destruct (matchAlternation methodNames (startsWith "/") route) as [[m r]|] eqn:E.
  - split; [cbn; eauto|]. cbn [snd].
    destruct (matchAlternation replaceNames (fun _ => true) route) as [[x rest]|] eqn:E2.
    + apply matchAlternation_sound in E2 as (-> & Hx & _). exists x. split; [reflexivity|].
      eapply names_are_methodChars; [|exact Hx]. reflexivity.
    + exists "". split; reflexivity.
  - destruct (span isMethodChar route) as [run rest] eqn:Es.
    destruct (negb (isEmpty run) && startsWith "/" rest) eqn:Ec; cbn [fst snd methodsOf].
    + split.
      * destruct (split "," (toLowerCase run)) as [|m ms] eqn:E3; [|eauto].
        exfalso. exact (split_nonempty _ _ E3).
      * apply span_sound in Es as (-> & Hall & _). exists run. split; [reflexivity|].
        exact Hall.
    + split; [eauto|]. exists "". split; reflexivity.
Qed.

(** ** [DepthString] *)


(** ** What registration keeps *)

Lemma extends_refl (w : world) : extends w w.
Proof.
  repeat split. - exists []. rewrite app_nil_r. reflexivity. - intros k p H. eauto.
Qed.

Lemma extends_trans (w1 w2 w3 : world) : extends w1 w2 -> extends w2 w3 -> extends w1 w3.
Proof.
  intros (Hd1 & Hv1 & (m1 & Hr1) & Hh1) (Hd2 & Hv2 & (m2 & Hr2) & Hh2).
  repeat split; [congruence|congruence| |].
  - exists (m1 ++ m2). rewrite Hr2, Hr1, app_assoc. reflexivity.
  - intros k p H. destruct (Hh1 k p H) as [p' H']. exact (Hh2 k p' H').
Qed.

Lemma growing_bind {A B : Type} (m : M A) (k : A -> M B) :
  growing m -> (forall a, growing (k a)) -> growing (bind m k).
Proof.
  intros Hm Hk w. unfold bind. specialize (Hm w).
  destruct (m w) as [[a|e| |] w1]; cbn [snd] in *; try exact Hm.
  eapply extends_trans; [exact Hm|apply Hk].
Qed.

Lemma growing_heap {A : Type} (m : M A) :
  (forall w, exists h, snd (m w) = setHeap h w) -> growing m.
Proof.
  intros H w. destruct (H w) as [h ->]. repeat split.
  - exists []. rewrite app_nil_r. reflexivity.
  - intros k p Hk. eauto.
Qed.

Lemma growing_same {A : Type} (m : M A) : (forall w, snd (m w) = w) -> growing m.
Proof. intros H w. rewrite H. apply extends_refl. Qed.

Lemma growing_modelled {A : Type} (o : option A) : growing (modelled o).
Proof. apply growing_same. intros w. destruct o; reflexivity. Qed.

Lemma growing_adjustPrefix depth objArray : growing (adjustPrefix depth objArray).
Proof.
  apply growing_heap. intros w. unfold adjustPrefix, bind, getWorld, putWorld.
  destruct (adjustDepth depth objArray (heap w)) as [[a h]|]; cbn.
  - exists h. reflexivity.
  - exists (heap w). destruct w; reflexivity.
Qed.

Lemma growing_adjustPostfix depth p : growing (adjustPostfix depth p).
Proof.
  destruct p; cbn [adjustPostfix].
  - apply growing_bind; [apply growing_adjustPrefix|]. intros a. apply growing_same. reflexivity.
  - apply growing_same. reflexivity.
Qed.

Lemma extends_hashSet (name routeUrl : string) (w : world) :
  extends w (setHash (hashSet name routeUrl (controllerToPathHash w)) w).
Proof.
  repeat split.
  - exists []. rewrite app_nil_r. reflexivity.
  - intros k p H. cbn. unfold hashSet. destruct (String.eqb name "__proto__"); [eauto|].
    destruct (decide (k = name)) as [->|Hne].
    + rewrite lookup_insert_eq. eauto.
    + rewrite lookup_insert_ne by congruence. eauto.
Qed.

Lemma growing_resolveAll controllers routeUrl expressCall :
  growing (resolveAll controllers routeUrl expressCall).
Proof.
  induction expressCall as [|e es IH]; [apply growing_same; reflexivity|].
  intros w. cbn [resolveAll]. unfold bind, getWorld, putWorld, modelled.
  destruct (entryName (heap w) e) as [name|]; cbn [ret unsupported snd];
    [|apply extends_refl].
  pose proof (extends_hashSet name routeUrl w) as Hset.
  destruct (getController controllers name _) as [[c|err| |] w1] eqn:Ec;
    apply getController_frame in Ec; subst w1; cbn [snd]; try exact Hset.
  specialize (IH (setHash (hashSet name routeUrl (controllerToPathHash w)) w)).
  destruct (resolveAll controllers routeUrl es _) as [[cs|err| |] w2]; cbn [snd ret] in *;
    eapply extends_trans; eassumption.
Qed.

Lemma growing_expressApply method routeUrl chain : growing (expressApply method routeUrl chain).
Proof.
  intros w. unfold expressApply, bind, getWorld, putWorld.
  destruct (existsb _ _); cbn [snd throw]; [|apply extends_refl].
  repeat split; [eexists; reflexivity|]. intros k p H. eauto.
Qed.

Lemma growing_expressApplyEach methods routeUrl chain :
  growing (expressApplyEach methods routeUrl chain).
Proof.
  induction methods as [|m ms IH]; cbn [expressApplyEach]; [apply growing_same; reflexivity|].
  apply growing_bind; [apply growing_expressApply|intros _; exact IH].
Qed.

Lemma growing_buildLeaf controllers currPath route v req :
  growing (buildLeaf controllers currPath route v req).
Proof.
  intros w. unfold buildLeaf. unfold bind at 1. unfold getWorld.
  destruct (parseRouteKey (defaultMethod w) route) as [theMethod routeUrl0].
  revert w. apply growing_bind; [apply growing_modelled|]. intros own.
  apply growing_bind; [apply growing_resolveAll|]. intros chain.
  destruct theMethod; [apply growing_expressApply|apply growing_expressApplyEach].
Qed.

Lemma growing_routeLoop recurse controllers currPath kvs req :
  (forall v p q, growing (recurse v p q)) ->
  growing (routeLoop recurse controllers currPath kvs req).
Proof.
  intros Hrec. revert req. induction kvs as [|[route v] kvs IH]; intros req.
  - apply growing_same. reflexivity.
  - cbn [routeLoop].
    assert (Hout : forall a : list (string * jsval) * required,
              growing (ret ((route, v) :: fst a, snd a))).
    { intros a. apply growing_same. reflexivity. }
    destruct (String.eqb route "required").
    + apply growing_bind; [apply IH|apply Hout].
    + destruct v; try (apply growing_same; reflexivity).
      * apply growing_bind; [apply growing_buildLeaf|].
        intros _. apply growing_bind; [apply IH|apply Hout].
      * apply growing_bind; [apply growing_buildLeaf|].
        intros _. apply growing_bind; [apply IH|apply Hout].
      * apply growing_bind; [apply Hrec|]. intros sub.
        apply growing_bind; [apply IH|]. intros a. apply growing_same. reflexivity.
Qed.

Lemma growing_buildRoutes fuel controllers routeObj currPath required :
  growing (buildRoutes fuel controllers routeObj currPath required).
Proof.
  revert routeObj currPath required.
  induction fuel as [|fuel IH]; intros routeObj currPath required.
  - apply growing_same. reflexivity.
  - cbn [buildRoutes]. destruct routeObj; try (apply growing_same; reflexivity).
    apply growing_bind; [apply growing_modelled|]. intros r.
    apply growing_bind; [apply growing_modelled|]. intros dpre.
    apply growing_bind; [apply growing_modelled|]. intros dpost.
    apply growing_bind; [apply growing_same; reflexivity|]. intros w0.
    apply growing_bind; [apply growing_modelled|]. intros post.
    apply growing_bind; [apply growing_adjustPrefix|]. intros pre'.
    apply growing_bind; [apply growing_adjustPostfix|]. intros post'.
    apply growing_bind; [|intros out; apply growing_same; reflexivity].
    apply growing_routeLoop. intros. apply IH.
Qed.

(** X4.  Whatever its outcome, a registration leaves the default method
    and the routing methods of the server as they are, adds its calls
    after those the server has received, and keeps a path recorded for
    every name that had one: it is not transactional, and it takes
    nothing back. *)
Theorem registerRoutes_only_adds (tree : jsval) (controllers : ctrl) (w : world) :
  extends w (snd (registerRoutes tree controllers w)).
Proof.
  revert w. unfold registerRoutes. apply growing_bind; [apply growing_buildRoutes|].
  intros out. apply growing_same. reflexivity.
Qed.

(** ** A leaf that fails, and one that registers *)

Lemma resolveAll_throws controllers routeUrl expressCall w e w' :
  resolveAll controllers routeUrl expressCall w = (Throw e, w') ->
  exists name t,
    e = InvalidControllerPath (split "." name)
    /\ walk controllers (split "." name) = None
    /\ controllerToPathHash w' = hashSet name routeUrl t.
Proof.
  revert w. induction expressCall as [|x es IH]; intros w H; [discriminate H|].
  cbn [resolveAll] in H. unfold bind, getWorld, putWorld, modelled in H.
  destruct (entryName (heap w) x) as [name|]; cbn [ret unsupported] in H; [|discriminate H].
  unfold getController in H at 1.
  destruct (walk controllers (split "." name)) eqn:Ew; cbn [ret throw] in H.
  - destruct (resolveAll controllers routeUrl es _) as [[cs|err| |] w2] eqn:Er;
      try discriminate H.
    inversion H; subst. exact (IH _ Er).
  - inversion H; subst. exists name, (controllerToPathHash w). auto.
Qed.

(** X5.  A leaf fails with [Invalid Controller Path Found] only for a name
    of its chain that does not resolve; no call has been made to the
    server for the leaf then, and the name is already recorded with the
    URL of the leaf. *)
Theorem buildLeaf_failure_is_recorded controllers currPath route v req w h w' :
  buildLeaf controllers currPath route v req w = (Throw (InvalidControllerPath h), w') ->
  app w' = app w
  /\ walk controllers h = None
  /\ exists name,
       h = split "." name
       /\ hashGet (controllerToPathHash w') name
          = if String.eqb name "__proto__" then HInherited
            else HPath (leafUrl currPath (snd (parseRouteKey (defaultMethod w) route))).
Proof.
  intros H. unfold buildLeaf in H. unfold bind at 1 in H. unfold getWorld in H.
  destruct (parseRouteKey (defaultMethod w) route) as [theMethod routeUrl0]. cbn [snd].
  unfold bind at 1 in H. destruct (ownEntries v) as [own|]; [|discriminate H].
  cbn [modelled ret] in H. unfold bind in H.
  destruct (resolveAll controllers _ _ w) as [[chain|e| |] w1] eqn:Er; try discriminate H.
  - exfalso. destruct theMethod as [m|ms].
    + unfold expressApply, bind, getWorld, putWorld in H.
      destruct (existsb _ _); discriminate H.
    + clear Er. revert w1 H. induction ms as [|m ms IH]; intros w1 H; [discriminate H|].
      cbn [expressApplyEach] in H. unfold bind in H.
      destruct (expressApply m _ chain w1) as [[[]|e| |] w2] eqn:Ea; try discriminate H.
      * exact (IH _ H).
      * unfold expressApply, bind, getWorld, putWorld in Ea.
        destruct (existsb _ _); inversion Ea; subst. discriminate H.
  - inversion H; subst e w1. pose proof (resolveAll_frame _ _ _ _ _ _ Er) as (Ha & _ & _).
    apply resolveAll_throws in Er as (name & t & E & Hw & Ht). inversion E; subst h.
    split; [exact Ha|]. split; [exact Hw|]. exists name. split; [reflexivity|].
    rewrite Ht. unfold hashGet, hashSet.
    destruct (String.eqb name "__proto__"); [reflexivity|]. rewrite lookup_insert_eq. reflexivity.
Qed.

Lemma buildLeaf_failure_is_recorded_witness :
  app (snd (buildLeaf Fixture.controllers "/a" "post/b/"
              (JArr [JStr "test"; JStr "depth.none"])
              (Required [] (PArr [])) Fixture.initial)) = app Fixture.initial
  /\ walk Fixture.controllers ["depth"; "none"] = None.
Proof.
  pose proof (buildLeaf_failure_is_recorded Fixture.controllers "/a" "post/b/"
                (JArr [JStr "test"; JStr "depth.none"]) (Required [] (PArr []))
                Fixture.initial ["depth"; "none"] _ eq_refl) as (Ha & Hw & _).
  exact (conj Ha Hw).
Defined.

(** ** A path without placeholders *)

Lemma scan_no_colon (matcher : string -> option (string * string))
    (f : string -> string -> string -> string) (before s : string) :
  (forall c s', Ascii.eqb c ":" = false -> matcher (String c s') = None) ->
  contains ":" s = false ->
  Replace.scan matcher f before 0 s = s.
Proof.
  intros Hm. revert before. induction s as [|c s IH]; intros before H; [reflexivity|].
  cbn [contains] in H. apply orb_false_iff in H as [Hc H].
  cbn [Replace.scan]. rewrite Hm by exact Hc. rewrite IH by exact H. reflexivity.
Qed.

Lemma substituteAll_no_colon (params : list (string * string)) (thePath : string) :
  forallb modelledParam params = true -> contains ":" thePath = false ->
  substituteAll params thePath = Some thePath.
Proof.
  intros Hp Hc. induction params as [|[param value] params IH]; [reflexivity|].
  cbn [forallb] in Hp. apply andb_true_iff in Hp as [Hm Hp].
  cbn [substituteAll]. unfold Url.substitute. unfold modelledParam in Hm. cbn [fst] in Hm.
  destruct (Url.paramPattern param) as [toks|]; [|discriminate Hm].
  unfold Replace.replaceAll. rewrite scan_no_colon; [apply IH, Hp| |exact Hc].
  intros c s' E. cbn [Url.matchParam]. rewrite E. reflexivity.
Qed.

Lemma stripOptional_no_colon (thePath : string) :
  contains ":" thePath = false -> Url.stripOptional thePath = thePath.
Proof.
  intros Hc. unfold Url.stripOptional, Replace.replaceAll. apply scan_no_colon; [|exact Hc].
  intros c s' E. cbn [Url.matchOptional]. rewrite E. reflexivity.
Qed.

Lemma getControllerUrl_plain (w : world) (controller thePath : string)
    (params : list (string * string)) :
  controllerToPathHash w !! controller = Some thePath ->
  existsb (String.eqb controller) objectPrototype = false ->
  thePath <> "" -> contains ":" thePath = false ->
  forallb modelledParam params = true ->
  getControllerUrl controller params w = (Ok (Path.join "" thePath), w).
Proof.
  intros Hh Hown Hne Hc Hp. unfold getControllerUrl, bind, getWorld.
  rewrite (hashGet_own _ _ Hown), Hh.
  destruct thePath as [|c thePath]; [congruence|]. cbn [isEmpty].
  rewrite substituteAll_no_colon by assumption. cbn [modelled ret].
  rewrite stripOptional_no_colon by assumption. rewrite Hc. reflexivity.
Qed.

(** ** The names of a leaf *)

Lemma resolveAll_keeps controllers routeUrl expressCall w r w' (n : string) :
  resolveAll controllers routeUrl expressCall w = (r, w') ->
  controllerToPathHash w !! n = Some routeUrl ->
  controllerToPathHash w' !! n = Some routeUrl.
Proof.
  revert w r w'. induction expressCall as [|e es IH]; intros w r w' H Hn.
  - inversion H; subst. exact Hn.
  - cbn [resolveAll] in H. unfold bind, getWorld, putWorld, modelled in H.
    destruct (entryName (heap w) e) as [name|]; cbn [ret unsupported] in H;
      [|inversion H; subst; exact Hn].
    assert (Hset : hashSet name routeUrl (controllerToPathHash w) !! n = Some routeUrl).
    { unfold hashSet. destruct (String.eqb name "__proto__"); [exact Hn|].
      destruct (decide (n = name)) as [->|Hne];
        [apply lookup_insert_eq|rewrite lookup_insert_ne by congruence; exact Hn]. }
    destruct (getController controllers name _) as [[c|err| |] w1] eqn:Ec;
      apply getController_frame in Ec; subst w1;
      try (inversion H; subst; exact Hset).
    destruct (resolveAll controllers routeUrl es _) as [[cs|err| |] w2] eqn:Er;
      apply IH in Er; try exact Hset; inversion H; subst; exact Er.
Qed.

Lemma resolveAll_records controllers routeUrl expressCall w chain w' names (n : string) :
  resolveAll controllers routeUrl expressCall w = (Ok chain, w') ->
  entryNames (heap w) expressCall = Some names ->
  In n names -> n <> "__proto__" ->
  controllerToPathHash w' !! n = Some routeUrl.
Proof.
  revert w chain w' names.
  induction expressCall as [|e es IH]; intros w chain w' names H Hnames Hin Hn.
  - inversion Hnames; subst. destruct Hin.
  - cbn [entryNames] in Hnames.
    destruct (entryName (heap w) e) as [name|] eqn:En; [|discriminate Hnames].
    destruct (entryNames (heap w) es) as [ns|] eqn:Ens; [|discriminate Hnames].
    inversion Hnames; subst names. clear Hnames.
    cbn [resolveAll] in H. unfold bind, getWorld, putWorld, modelled in H.
    rewrite En in H. cbn [ret] in H.
    destruct (getController controllers name _) as [[c|err| |] w1] eqn:Ec;
      apply getController_frame in Ec; subst w1; try discriminate H.
    destruct (resolveAll controllers routeUrl es _) as [[cs|err| |] w2] eqn:Er;
      try discriminate H.
    inversion H; subst chain w2. destruct Hin as [<-|Hin].
    + eapply resolveAll_keeps; [exact Er|]. cbn. unfold hashSet.
      destruct (String.eqb name "__proto__") eqn:E; [apply String.eqb_eq in E; congruence|].
      apply lookup_insert_eq.
    + eapply IH; [exact Er|exact Ens|exact Hin|exact Hn].
Qed.

Lemma expressApply_hash method routeUrl chain w :
  controllerToPathHash (snd (expressApply method routeUrl chain w)) = controllerToPathHash w.
Proof. unfold expressApply, bind, getWorld, putWorld. destruct (existsb _ _); reflexivity. Qed.

Lemma expressApplyEach_hash methods routeUrl chain w :
  controllerToPathHash (snd (expressApplyEach methods routeUrl chain w))
  = controllerToPathHash w.
Proof.
  revert w. induction methods as [|m ms IH]; intros w; [reflexivity|].
  cbn [expressApplyEach]. unfold bind.
  pose proof (expressApply_hash m routeUrl chain w) as H.
  destruct (expressApply m routeUrl chain w) as [[[]|e| |] w1]; cbn [snd] in *; try exact H.
  rewrite IH. exact H.
Qed.

(** X6.  When a leaf has registered, every name of its chain, those of
    the prefix and of the postfix with its own, has the URL of the leaf
    recorded; and when that URL is not empty and has no placeholder,
    [getControllerUrl] gives it back, normalized, for each of these
    names, whatever parameters it is given. *)
Theorem registered_leaf_has_url controllers currPath route v req w w'
    (own : list entry) (names : list string) (n : string)
    (params : list (string * string)) :
  buildLeaf controllers currPath route v req w = (Ok tt, w') ->
  ownEntries v = Some own ->
  entryNames (heap w) (prefix req ++ own ++ postfixEntries (postfix req)) = Some names ->
  In n names ->
  existsb (String.eqb n) objectPrototype = false ->
  controllerToPathHash w' !! n
  = Some (leafUrl currPath (snd (parseRouteKey (defaultMethod w) route)))
  /\ (leafUrl currPath (snd (parseRouteKey (defaultMethod w) route)) <> "" ->
      contains ":" (leafUrl currPath (snd (parseRouteKey (defaultMethod w) route))) = false ->
      forallb modelledParam params = true ->
      getControllerUrl n params w'
      = (Ok (Path.join "" (leafUrl currPath (snd (parseRouteKey (defaultMethod w) route)))),
         w')).
Proof.
  intros H Hown Hnames Hin Hn.
  assert (Hrec : controllerToPathHash w' !! n
                 = Some (leafUrl currPath (snd (parseRouteKey (defaultMethod w) route)))).
  { unfold buildLeaf in H. unfold bind at 1 in H. unfold getWorld in H.
    destruct (parseRouteKey (defaultMethod w) route) as [theMethod routeUrl0]. cbn [snd].
    rewrite Hown in H. unfold bind at 1 in H. cbn [modelled ret] in H. unfold bind in H.
    destruct (resolveAll controllers _ _ w) as [[chain|e| |] w1] eqn:Er; try discriminate H.
    assert (Hw1 : controllerToPathHash w1 !! n = Some (leafUrl currPath routeUrl0)).
    { eapply resolveAll_records; [exact Er|exact Hnames|exact Hin|].
      intros ->. discriminate Hn. }
    destruct theMethod as [m|ms].
    - pose proof (expressApply_hash m (leafUrl currPath routeUrl0) chain w1) as Hh.
      rewrite H in Hh. cbn [snd] in Hh. rewrite Hh. exact Hw1.
    - pose proof (expressApplyEach_hash ms (leafUrl currPath routeUrl0) chain w1) as Hh.
      rewrite H in Hh. cbn [snd] in Hh. rewrite Hh. exact Hw1. }
  split; [exact Hrec|]. intros Hne Hc Hp. apply getControllerUrl_plain; assumption.
Qed.

Lemma registered_leaf_has_url_witness :
  getControllerUrl "intercept" [("id", "7")]
    (snd (buildLeaf Fixture.controllers "/a" "get,post/b/" (JStr "depth.test")
            (Required [EPlain "intercept"] (PArr [])) Fixture.initial))
  = (Ok "/a/b",
     snd (buildLeaf Fixture.controllers "/a" "get,post/b/" (JStr "depth.test")
            (Required [EPlain "intercept"] (PArr [])) Fixture.initial)).
Proof.
  apply (proj2 (registered_leaf_has_url Fixture.controllers "/a" "get,post/b/"
                  (JStr "depth.test") (Required [EPlain "intercept"] (PArr []))
                  Fixture.initial _ [EPlain "depth.test"] ["intercept"; "depth.test"]
                  "intercept" [("id", "7")] eq_refl eq_refl eq_refl
                  (or_introl eq_refl) eq_refl));
    [discriminate|reflexivity|reflexivity].
Defined.

(** ** Loading the controllers *)

Lemma lookupKey_setKey_other {A : Type} (k k' : string) (v : A) (kvs : list (string * A)) :
  String.eqb k' k = false -> lookupKey k (setKey k' v kvs) = lookupKey k kvs.
Proof.
  intros H. induction kvs as [|[k0 v0] kvs IH]; cbn; [rewrite H; reflexivity|].
  destruct (String.eqb k0 k') eqn:E; cbn.
  - apply String.eqb_eq in E. subst k0. rewrite H. reflexivity.
  - destruct (String.eqb k0 k); [reflexivity|exact IH].
Qed.






(** X8.  The entries of a directory that are files are passed over:
    only its subdirectories are loaded. *)
Theorem loadChildren_skips_files (load : fsnode -> ctrl -> loadResult)
    (pathChildren : list (string * fsnode)) (controllerObj : ctrl) :
  loadChildren load (List.filter (fun kv => isDirectory (snd kv)) pathChildren) controllerObj
  = loadChildren load pathChildren controllerObj.
Proof.
  revert controllerObj. induction pathChildren as [|[name child] es IH]; intros controllerObj;
    [reflexivity|].
  cbn [List.filter snd]. destruct (isDirectory child) eqn:E; cbn [loadChildren]; rewrite E.
  - destruct controllerObj as [f|members]; [reflexivity|].
    destruct (existsb _ _); [reflexivity|].
    destruct (load child _); try reflexivity. apply IH.
  - apply IH.
Qed.

Lemma loadChildren_other load (es : list (string * fsnode)) (members : list (string * ctrl))
    (res : ctrl) (k : string) :
  loadChildren load es (CObj members) = Loaded res ->
  (forall sub, ~ In (k, FDir sub) es) ->
  exists members', res = CObj members' /\ lookupKey k members' = lookupKey k members.
Proof.
  revert members. induction es as [|[name child] es IH]; intros members H Hk.
  - inversion H; subst. eauto.
  - cbn [loadChildren] in H.
    assert (Hk' : forall sub, ~ In (k, FDir sub) es).
    { intros sub Hin. apply (Hk sub). right. exact Hin. }
    destruct child as [exports|sub]; cbn [isDirectory] in H; [exact (IH _ H Hk')|].
    destruct (existsb _ _); [discriminate H|].
    destruct (load (FDir sub) _) as [r| | |]; try discriminate H.
    destruct (IH _ H Hk') as (members' & -> & Hl). exists members'. split; [reflexivity|].
    rewrite Hl. apply lookupKey_setKey_other.
    destruct (String.eqb name k) eqn:E; [|reflexivity].
    apply String.eqb_eq in E. subst name. exfalso. apply (Hk sub). left. reflexivity.
Qed.

Lemma loadChildren_places load (es : list (string * fsnode)) (members : list (string * ctrl))
    (res : ctrl) (k : string) (sub : list (string * fsnode)) :
  loadChildren load es (CObj members) = Loaded res ->
  NoDup (map fst es) -> In (k, FDir sub) es ->
  exists members' r,
    res = CObj members' /\ lookupKey k members' = Some r
    /\ load (FDir sub) (default (CObj []) (lookupKey k members)) = Loaded r.
Proof.
  revert members. induction es as [|[name child] es IH]; intros members H Hnd Hin;
    [destruct Hin|].
  cbn [map fst] in Hnd. apply NoDup_cons in Hnd as [Hnot Hnd]. cbn [loadChildren] in H.
  destruct Hin as [Hin|Hin].
  - inversion Hin; subst name child. cbn [isDirectory] in H.
    destruct (existsb _ _); [discriminate H|].
    destruct (load (FDir sub) _) as [r| | |] eqn:El; try discriminate H.
    destruct (loadChildren_other _ _ _ _ k H) as (members' & -> & Hl).
    { intros sub' Hin'. apply Hnot. apply list_elem_of_In.
      apply (in_map fst) in Hin'. exact Hin'. }
    exists members', r. split; [reflexivity|]. split; [|reflexivity].
    rewrite Hl. apply lookupKey_setKey.
  - assert (Hne : String.eqb name k = false).
    { destruct (String.eqb name k) eqn:E; [|reflexivity]. apply String.eqb_eq in E.
      subst name. exfalso. apply Hnot. apply list_elem_of_In.
      apply (in_map fst) in Hin. exact Hin. }
    destruct child as [exports|sub']; cbn [isDirectory] in H; [exact (IH _ H Hnd Hin)|].
    destruct (existsb _ _); [discriminate H|].
    destruct (load (FDir sub') _) as [r'| | |]; try discriminate H.
    destruct (IH _ H Hnd Hin) as (members' & r & -> & Hl & Hr).
    exists members', r. split; [reflexivity|]. split; [exact Hl|].
    rewrite lookupKey_setKey_other in Hr by exact Hne. exact Hr.
Qed.

(** X9.  The namespace loaded from a directory whose entries have
    distinct names: under the name of a subdirectory it holds what
    [loadControllers] gives for the subdirectory, started from the
    property of that name of the directory's own module, or from [{}];
    under any other name it holds what the directory's own module, merged
    over the object that came in, holds. *)
Theorem loadControllers_namespace (entries : list (string * fsnode)) (controllerObj : ctrl)
    (members : list (string * ctrl)) :
  loadControllers (Some (FDir entries)) controllerObj = Loaded (CObj members) ->
  NoDup (map fst entries) ->
  exists merged,
    requireControllers entries controllerObj = Some merged
    /\ (forall k sub, In (k, FDir sub) entries ->
          exists own r,
            merged = CObj own /\ lookupKey k members = Some r
            /\ loadControllers (Some (FDir sub)) (default (CObj []) (lookupKey k own))
               = Loaded r)
    /\ (forall k own, (forall sub, ~ In (k, FDir sub) entries) -> merged = CObj own ->
          lookupKey k members = lookupKey k own).
Proof.
  cbn [loadControllers loadNode]. intros H Hnd.
  destruct (requireControllers entries controllerObj) as [merged|]; [|discriminate H].
  exists merged. split; [reflexivity|]. split.
  - intros k sub Hin. destruct merged as [f|own].
    + exfalso. clear Hnd. induction entries as [|[name child] es IH]; [destruct Hin|].
      cbn [loadChildren] in H. destruct Hin as [Hin|Hin].
      * inversion Hin; subst. discriminate H.
      * destruct (isDirectory child); [discriminate H|]. exact (IH H Hin).
    + destruct (loadChildren_places _ _ _ _ k sub H Hnd Hin) as (members' & r & E & Hl & Hr).
      inversion E; subst members'. exists own, r. auto.
  - intros k own Hk ->.
    destruct (loadChildren_other _ _ _ _ k H Hk) as (members' & E & Hl).
    inversion E; subst members'. exact Hl.
Qed.

Lemma loadControllers_namespace_witness :
  loadControllers (Some site) (CObj [])
  = Loaded (CObj [("index", CFun "index");
                  ("social", CObj [("old", CFun "old"); ("index", CFun "social.index");
                                   ("deep", CObj [])])])
  /\ exists merged,
       requireControllers [("controllers.js",
         FFile (Some (CObj [("index", CFun "index"); ("social", CObj [("old", CFun "old")])])));
        ("helper_lib.js", FFile None);
        ("social", FDir [("controllers.js", FFile (Some (CObj [("index", CFun "social.index")])));
                         ("deep", FDir [])])] (CObj []) = Some merged.
Proof.
  split; [reflexivity|].
  destruct (loadControllers_namespace
              [("controllers.js",
                FFile (Some (CObj [("index", CFun "index");
                                   ("social", CObj [("old", CFun "old")])])));
               ("helper_lib.js", FFile None);
               ("social", FDir [("controllers.js",
                                 FFile (Some (CObj [("index", CFun "social.index")])));
                                ("deep", FDir [])])]
              (CObj [])
              [("index", CFun "index");
               ("social", CObj [("old", CFun "old"); ("index", CFun "social.index");
                                ("deep", CObj [])])]
              eq_refl) as (merged & Hm & _).
  - apply (bool_decide_unpack _). vm_compute. exact I.
  - exists merged. exact Hm.
Defined.

(** ** A method that the server does not have *)

Lemma setApp_same (w : world) :
  setApp (Server (verbs (app w)) (routes (app w) ++ [])) w = w.
Proof. destruct w as [t d h [vs rs]]. unfold setApp. cbn. rewrite app_nil_r. reflexivity. Qed.

(** X10.  With a list of methods, the leaf is bound for each method in
    turn: at the first method that the server does not have the call
    fails with a type error, and the methods before it are bound
    already. *)
Theorem expressApplyEach_stops (before after : list string) (method routeUrl : string)
    (chain : list ctrl) (w : world) :
  forallb (fun m => existsb (String.eqb m) (verbs (app w))) before = true ->
  existsb (String.eqb method) (verbs (app w)) = false ->
  expressApplyEach (before ++ method :: after) routeUrl chain w
  = (Throw TypeError,
     setApp (Server (verbs (app w))
               (routes (app w) ++ map (fun m => Binding m routeUrl chain) before)) w).
Proof.
  revert w. induction before as [|m ms IH]; intros w Hb Hm.
  - cbn [List.app expressApplyEach map]. unfold expressApply, bind, getWorld. rewrite Hm.
    cbn [throw]. rewrite setApp_same. reflexivity.
  - cbn [forallb] in Hb. apply andb_true_iff in Hb as [Hv Hb].
    cbn [List.app expressApplyEach map]. unfold expressApply at 1.
    unfold bind, getWorld, putWorld. rewrite Hv.
    rewrite IH by (cbn; assumption). cbn. rewrite <- app_assoc. reflexivity.
Qed.

Lemma expressApplyEach_stops_witness :
  expressApplyEach ["get"; "gett"; "post"] "/x" [CFun "test"] Fixture.initial
  = (Throw TypeError,
     setApp (Server (verbs Fixture.createServer) [Binding "get" "/x" [CFun "test"]])
       Fixture.initial).
Proof.
  apply (expressApplyEach_stops ["get"] ["post"] "gett" "/x" [CFun "test"] Fixture.initial);
    reflexivity.
Defined.

(** ** The entries that [adjustDepth] keeps *)

Lemma entryNames_depthsOnly (h h' : list boxed) (es : list entry) (names : list string) :
  depthsOnly h h' -> entryNames h es = Some names -> entryNames h' es = Some names.
Proof.
  intros Hh. revert names. induction es as [|e es IH]; intros names H; [exact H|].
  cbn [entryNames] in *.
  destruct (entryName h e) as [n|] eqn:En; [|discriminate H].
  destruct (entryNames h es) as [ns|]; [|discriminate H].
  rewrite (IH ns eq_refl).
  assert (En' : entryName h' e = Some n).
  { destruct e as [s|l]; [exact En|]. cbn [entryName] in *.
    destruct (h !! l) as [b|] eqn:El; [|discriminate En].
    destruct (Hh l b El) as (b' & El' & Hs & _). rewrite El'. cbn in *. congruence. }
  rewrite En'. exact H.
Qed.

(** X11.  [adjustDepth] leaves in the array String objects only, each one
    an object of the heap; the names of the entries that it leaves are
    names of the entries that it was given, in their order: it drops
    entries, and neither adds nor reorders nor renames any. *)
Theorem adjustDepth_keeps_order (depth : option num) (objArray objArray' : list entry)
    (h h' : list boxed) (names : list string) :
  adjustDepth depth objArray h = Some (objArray', h') ->
  entryNames h objArray = Some names ->
  Forall (fun e => exists l b, e = ERef l /\ h' !! l = Some b) objArray'
  /\ exists names', entryNames h' objArray' = Some names' /\ sublist names' names.
Proof.
  revert objArray' h h' names.
  induction objArray as [|e rest IH]; intros objArray' h h' names H Hn.
  - inversion H; subst. inversion Hn; subst. split; [constructor|]. exists []. split; reflexivity.
  - cbn [entryNames] in Hn.
    destruct (entryName h e) as [n|] eqn:En; [|discriminate Hn].
    destruct (entryNames h rest) as [ns|] eqn:Ens; [|discriminate Hn].
    inversion Hn; subst names. clear Hn. cbn [adjustDepth] in H.
    set (lh := match e with
               | EPlain s => (List.length h, h ++ [Boxed s None])
               | ERef l => (l, h)
               end) in H.
    assert (Hlh : depthsOnly h (snd lh)
                  /\ option_map bstr (snd lh !! fst lh) = Some n).
    { destruct e as [s|l]; cbn [lh fst snd].
      - split; [apply depthsOnly_app|]. rewrite lookup_at_end. cbn in En |- *. exact En.
      - split; [apply depthsOnly_refl|exact En]. }
    destruct lh as [l h1]. cbn [fst snd] in Hlh. destruct Hlh as [Hh1 Hname].
    destruct (h1 !! l) as [b|] eqn:Hl; [|discriminate H].
    cbn in Hname. inversion Hname; subst n. clear Hname.
    pose proof (depthsOnly_insert h1 l b depth Hl) as Hins. unfold pass in Hins.
    destruct (depthNegative (if depthFalsy (bdepth b) then depth else bdepth b)).
    + apply (IH _ _ _ ns) in H.
      * destruct H as (Hall & names' & Hn' & Hsub). split; [exact Hall|].
        exists names'. split; [exact Hn'|]. apply sublist_cons, Hsub.
      * eapply entryNames_depthsOnly; [|exact Ens].
        eapply depthsOnly_trans; eassumption.
    + destruct (adjustDepth depth rest _) as [[rest' h2]|] eqn:Hrest; [|discriminate H].
      inversion H; subst objArray' h2. clear H.
      pose proof (adjustDepth_depthsOnly _ _ _ _ _ Hrest) as Hh2.
      apply (IH _ _ _ ns) in Hrest.
      * destruct Hrest as (Hall & names' & Hn' & Hsub).
        destruct (Hh2 l (Boxed (bstr b) (Some (depthDecr (if depthFalsy (bdepth b)
                                                           then depth else bdepth b)))))
          as (b' & Hl' & Hs & _).
        { apply list_lookup_insert_eq. eapply lookup_lt_Some. exact Hl. }
        split; [constructor; [eauto|exact Hall]|].
        exists (bstr b :: names'). split; [|apply sublist_skip, Hsub].
        cbn [entryNames entryName]. rewrite Hl', Hn'. cbn. rewrite Hs. reflexivity.
      * eapply entryNames_depthsOnly; [|exact Ens].
        eapply depthsOnly_trans; eassumption.
Qed.

Lemma adjustDepth_keeps_order_witness :
  exists names',
    entryNames [Boxed "b" (Some (Fin (-1))); Boxed "a" (Some (Fin 1)); Boxed "c" (Some (Fin 1))]
      [ERef 1; ERef 2] = Some names'
    /\ sublist names' ["a"; "b"; "c"].
Proof.
  exact (proj2 (adjustDepth_keeps_order (Some (Fin 2)) [EPlain "a"; ERef 0; EPlain "c"]
                  [ERef 1; ERef 2] [Boxed "b" (Some (Fin (-1)))]
                  [Boxed "b" (Some (Fin (-1))); Boxed "a" (Some (Fin 1));
                   Boxed "c" (Some (Fin 1))]
                  ["a"; "b"; "c"] eq_refl eq_refl)).
Defined.
